(** * SafeConfig: the compiler core (ir, invariants, diff, parser)

    A shallow embedding of [src/compiler/ir.ts], [src/compiler/invariants.ts],
    [src/compiler/diff.ts] and [src/compiler/parser.ts], followed by the
    properties of the three-stage pipeline
    parse-and-validate -> invariant evaluation -> drift diff. *)

From Stdlib Require Import ZArith QArith Ascii.
From stdpp Require Import base list strings gmap pretty.

Local Open Scope string_scope.
Local Open Scope list_scope.

(* ===================================================================== *)
(** ** src/compiler/ir.ts *)
(* ===================================================================== *)

Module ir.

Inductive ServiceType := api | db | queue | cache.
Inductive Protocol := http | https | tcp.
Inductive SourceFormat := yaml | json.

(** A TypeScript [number]; the values that occur in a configuration are
    finite decimals, represented here as rationals. *)
Abbreviation number := Q.

Record NetworkBinding := {
  host : string;
  port : number;
  protocol : Protocol
}.

Record ResourceLimits := {
  cpu : option number;
  memoryMb : option number
}.

Record Service := {
  name : string;
  type : ServiceType;
  public : bool;
  handlesPII : bool;
  network : list NetworkBinding;
  dependsOn : list string;
  resourceLimits : option ResourceLimits
}.

Record Metadata := {
  sourceFormat : SourceFormat;
  rawHash : option string
}.

Record ConfigIR := {
  services : list Service;
  metadata : option Metadata
}.

#[global] Instance ServiceType_eq_dec : EqDecision ServiceType.
Proof. solve_decision. Defined.
#[global] Instance Protocol_eq_dec : EqDecision Protocol.
Proof. solve_decision. Defined.
#[global] Instance SourceFormat_eq_dec : EqDecision SourceFormat.
Proof. solve_decision. Defined.

End ir.

(* ===================================================================== *)
(** ** src/compiler/invariants.ts *)
(* ===================================================================== *)

Module invariants.
Import ir.

Inductive Severity := low | medium | high.

#[global] Instance Severity_eq_dec : EqDecision Severity.
Proof. solve_decision. Defined.

Record InvariantViolation := {
  id : string;
  description : string;
  serviceName : string;
  severity : Severity
}.

(** [Array.prototype.some]. *)
Definition some {A} (p : A -> bool) (l : list A) : bool := existsb p l.

(** [x !== undefined] on an optional field. *)
Definition defined {A} (x : option A) : bool :=
  match x with Some _ => true | None => false end.

(** R1: DB must not be public/open to 0.0.0.0 *)
Definition ruleNoPublicDatabases (service : Service)
  : option InvariantViolation :=
  if negb (bool_decide (type service = db)) then None else
  let hasPublicBinding :=
    some (fun n => String.eqb (host n) "0.0.0.0" || public service)
         (network service) in
  if negb hasPublicBinding then None else
  Some {| id := "R1_NO_PUBLIC_DB";
          description := "Database service is exposed publicly (host=0.0.0.0 or marked public). Databases should not be directly reachable from the internet.";
          serviceName := name service;
          severity := high |}.

(** R2: public services must have HTTPS *)
Definition rulePublicServicesRequireTLS (service : Service)
  : option InvariantViolation :=
  if negb (public service) then None else
  let hasHttps :=
    some (fun n => bool_decide (protocol n = https)) (network service) in
  if hasHttps then None else
  let hasHttp :=
    some (fun n => bool_decide (protocol n = http)) (network service) in
  if negb hasHttp then None else
  Some {| id := "R2_PUBLIC_REQUIRES_TLS";
          description := "Publicly exposed service listens on HTTP without any HTTPS endpoint. Public services must have TLS enabled.";
          serviceName := name service;
          severity := high |}.

(** R3: services handling PII must not be marked public *)
Definition ruleNoPIIPublicExposure (service : Service)
  : option InvariantViolation :=
  if negb (handlesPII service) then None else
  if negb (public service) then None else
  Some {| id := "R3_NO_PII_PUBLIC";
          description := "Service that handles PII is marked as public. PII-handling services should not be directly exposed to the internet.";
          serviceName := name service;
          severity := high |}.

(** R4: every service must have resource limits defined *)
Definition ruleResourceLimitsDefined (service : Service)
  : option InvariantViolation :=
  let limits := resourceLimits service in
  if match limits with
     | Some limits => defined (cpu limits) && defined (memoryMb limits)
     | None => false
     end
  then None else
  Some {| id := "R4_RESOURCE_LIMITS";
          description := "Service is missing CPU or memory limits. Resource limits are required for predictable capacity and to prevent noisy-neighbour issues.";
          serviceName := name service;
          severity := medium |}.

Definition RULES : list (Service -> option InvariantViolation) :=
  [ ruleNoPublicDatabases;
    rulePublicServicesRequireTLS;
    ruleNoPIIPublicExposure;
    ruleResourceLimitsDefined ].

(** The body of the inner loop: [const v = rule(svc); if (v) violations.push(v)]. *)
Definition applyRule (svc : Service)
    (violations : list InvariantViolation)
    (rule : Service -> option InvariantViolation)
  : list InvariantViolation :=
  match rule svc with
  | Some v => violations ++ [v]
  | None => violations
  end.

(** The body of the outer loop: [for (const rule of RULES) ...]. *)
Definition checkService (violations : list InvariantViolation)
    (svc : Service) : list InvariantViolation :=
  fold_left (applyRule svc) RULES violations.

Definition checkInvariants (ir : ConfigIR) : list InvariantViolation :=
  fold_left checkService (services ir) [].

End invariants.

(* ===================================================================== *)
(** ** src/compiler/diff.ts *)
(* ===================================================================== *)

Module diff.
Import ir.
Import invariants.
Local Open Scope nat_scope.

Inductive RiskImpact := risk_increase | risk_decrease | neutral.

#[global] Instance RiskImpact_eq_dec : EqDecision RiskImpact.
Proof. solve_decision. Defined.

Record ServiceChange := {
  serviceName : string;
  messages : list string;
  riskImpact : RiskImpact
}.

Record DiffSummary := {
  totalNewViolations : nat;
  totalResolvedViolations : nat
}.

Record DiffResult := {
  summary : DiffSummary;
  changes : list ServiceChange
}.

(** The run-time text of a [Severity] value. *)
Definition Severity_text (s : Severity) : string :=
  match s with low => "low" | medium => "medium" | high => "high" end.

(** [Array.prototype.join]. *)
Definition join (sep : string) (l : list string) : string :=
  String.concat sep l.

(** [map.get(k) ?? []]. *)
Definition getOrEmpty (map : gmap string (list InvariantViolation))
    (k : string) : list InvariantViolation :=
  default [] (map !! k).

Definition indexByService (violations : list InvariantViolation)
  : gmap string (list InvariantViolation) :=
  fold_left
    (fun map v =>
       let arr := getOrEmpty map (invariants.serviceName v) in
       <[invariants.serviceName v := arr ++ [v]]> map)
    violations ∅.

(** [Set.prototype.add]: a [Set<string>] keeps its elements in insertion
    order, and adding a present element changes nothing. *)
Definition Set_add (s : list string) (x : string) : list string :=
  if bool_decide (x ∈ s) then s else s ++ [x].

(** [new Set<string>(iterable)]. *)
Definition Set_new (l : list string) : list string :=
  fold_left Set_add l [].

(** The mutable locals of [diffConfigs]. *)
Record DiffState := {
  st_totalNewViolations : nat;
  st_totalResolvedViolations : nat;
  st_changes : list ServiceChange
}.

(** The body of [for (const name of allServiceNames)]. *)
Definition diffStep
    (oldIndex newIndex : gmap string (list InvariantViolation))
    (st : DiffState) (name : string) : DiffState :=
  let oldVs := getOrEmpty oldIndex name in
  let newVs := getOrEmpty newIndex name in
  let oldCount := length oldVs in
  let newCount := length newVs in
  if (oldCount =? 0) && (newCount =? 0) then st else
  let '(totalNew, totalResolved, messages) :=
    if (oldCount =? 0) && (0 <? newCount) then
      (st_totalNewViolations st + newCount,
       st_totalResolvedViolations st,
       [pretty newCount +:+ " new violation(s) introduced."])
    else if (0 <? oldCount) && (newCount =? 0) then
      (st_totalNewViolations st,
       st_totalResolvedViolations st + oldCount,
       [pretty oldCount +:+ " violation(s) resolved."])
    else if negb (newCount =? oldCount) then
      if oldCount <? newCount then
        (st_totalNewViolations st + (newCount - oldCount),
         st_totalResolvedViolations st,
         ["Violations increased from " +:+ pretty oldCount +:+ " to "
            +:+ pretty newCount +:+ "."])
      else
        (st_totalNewViolations st,
         st_totalResolvedViolations st + (oldCount - newCount),
         ["Violations decreased from " +:+ pretty oldCount +:+ " to "
            +:+ pretty newCount +:+ "."])
    else
      (st_totalNewViolations st,
       st_totalResolvedViolations st,
       ["Violations count unchanged (" +:+ pretty newCount +:+ ")."]) in
  let messages :=
    if 0 <? length newVs then
      messages ++
      ["Current violations: " +:+
         join ", "
           (map (fun v => id v +:+ " (" +:+ Severity_text (severity v) +:+ ")")
                newVs)]
    else messages in
  let riskImpact :=
    if oldCount <? newCount then risk_increase
    else if newCount <? oldCount then risk_decrease
    else neutral in
  {| st_totalNewViolations := totalNew;
     st_totalResolvedViolations := totalResolved;
     st_changes :=
       st_changes st ++
       [{| serviceName := name; messages := messages;
           riskImpact := riskImpact |}] |}.

Definition diffConfigs (oldIR newIR : ConfigIR)
    (oldViolations newViolations : list InvariantViolation) : DiffResult :=
  let oldIndex := indexByService oldViolations in
  let newIndex := indexByService newViolations in
  let allServiceNames :=
    Set_new (map name (services oldIR) ++ map name (services newIR)) in
  let st :=
    fold_left (diffStep oldIndex newIndex) allServiceNames
      {| st_totalNewViolations := 0;
         st_totalResolvedViolations := 0;
         st_changes := [] |} in
  {| summary :=
       {| totalNewViolations := st_totalNewViolations st;
          totalResolvedViolations := st_totalResolvedViolations st |};
     changes := st_changes st |}.

End diff.

(* ===================================================================== *)
(** ** The hash function used by src/compiler/parser.ts *)
(* ===================================================================== *)

Module sha256.
(** Node's crypto module is not part of the repository:
    [crypto.createHash('sha256').update(text).digest('hex')] is SHA-256 as
    FIPS 180-4 defines it, over the bytes of the text (a [string] here is
    the UTF-8 encoding that [update] hashes). *)
Local Open Scope Z_scope.

(** 32-bit words are integers in [0, 2^32); every operation that can
    leave that range is followed by [wrap]. *)
Definition wrap (x : Z) : Z := x mod 2 ^ 32.
Definition add32 (x y : Z) : Z := wrap (x + y).
Definition not32 (x : Z) : Z := Z.lxor x 0xffffffff.
Definition rotr (n x : Z) : Z :=
  Z.lor (Z.shiftr x n) (wrap (Z.shiftl x (32 - n))).
Definition xor3 (x y z : Z) : Z := Z.lxor (Z.lxor x y) z.

Definition Ch (e f g : Z) : Z := Z.lxor (Z.land e f) (Z.land (not32 e) g).
Definition Maj (a b c : Z) : Z :=
  xor3 (Z.land a b) (Z.land a c) (Z.land b c).
Definition bigSigma0 (x : Z) : Z := xor3 (rotr 2 x) (rotr 13 x) (rotr 22 x).
Definition bigSigma1 (x : Z) : Z := xor3 (rotr 6 x) (rotr 11 x) (rotr 25 x).
Definition smallSigma0 (x : Z) : Z :=
  xor3 (rotr 7 x) (rotr 18 x) (Z.shiftr x 3).
Definition smallSigma1 (x : Z) : Z :=
  xor3 (rotr 17 x) (rotr 19 x) (Z.shiftr x 10).

(** The first 64 primes. *)
Definition primes : list Z :=
  [ 2; 3; 5; 7; 11; 13; 17; 19; 23; 29; 31; 37; 41; 43; 47; 53;
    59; 61; 67; 71; 73; 79; 83; 89; 97; 101; 103; 107; 109; 113; 127; 131;
    137; 139; 149; 151; 157; 163; 167; 173; 179; 181; 191; 193; 197; 199;
    211; 223; 227; 229; 233; 239; 241; 251; 257; 263; 269; 271; 277; 281;
    283; 293; 307; 311 ].

(** The integer cube root of a number below 2^108, bit by bit. *)
Definition cube_root (n : Z) : Z :=
  fold_left
    (fun r k => let c := r + 2 ^ Z.of_nat k in if c ^ 3 <=? n then c else r)
    (rev (seq 0 36)) 0.

(** The first 32 bits of the fractional part of a cube root, and of a
    square root. *)
Definition frac_cube_root (p : Z) : Z := wrap (cube_root (p * 2 ^ 96)).
Definition frac_sqrt (p : Z) : Z := wrap (Z.sqrt (p * 2 ^ 64)).

(** The round constants: from the cube roots of the first 64 primes. *)
Definition K : list Z := map frac_cube_root primes.

(** The eight chaining words. *)
Record chain := {
  wa : Z; wb : Z; wc : Z; wd : Z; we : Z; wf : Z; wg : Z; wh : Z
}.

(** The initial chaining words: from the square roots of the first eight
    primes. *)
Definition initial : chain :=
  {| wa := frac_sqrt 2; wb := frac_sqrt 3; wc := frac_sqrt 5;
     wd := frac_sqrt 7; we := frac_sqrt 11; wf := frac_sqrt 13;
     wg := frac_sqrt 17; wh := frac_sqrt 19 |}.

(** Message padding: a 1 bit, zeros up to 56 mod 64 bytes, then the bit
    length as a 64-bit big-endian integer. *)
Definition be_bytes (n : nat) (x : Z) : list Z :=
  map (fun i => Z.land (Z.shiftr x (8 * Z.of_nat i)) 0xff) (rev (seq 0 n)).

Definition pad (msg : list Z) : list Z :=
  let len := Z.of_nat (length msg) in
  msg ++ [0x80] ++ repeat 0 (Z.to_nat ((55 - len) mod 64))
      ++ be_bytes 8 (8 * len).

(** Cut a list into [n] consecutive pieces of [size] elements. *)
Fixpoint pieces {A} (size n : nat) (l : list A) : list (list A) :=
  match n with
  | O => []
  | S n' => firstn size l :: pieces size n' (skipn size l)
  end.

Definition be_word (bytes : list Z) : Z :=
  fold_left (fun acc b => Z.lor (Z.shiftl acc 8) b) bytes 0.

Definition block_words (block : list Z) : list Z :=
  map be_word (pieces 4 16 block).

(** The message schedule: [n] further words after the first sixteen. *)
Fixpoint schedule (n : nat) (w : list Z) : list Z :=
  match n with
  | O => w
  | S n' =>
    let t := length w in
    let at_back k := nth (t - k) w 0 in
    schedule n'
      (w ++ [add32 (add32 (smallSigma1 (at_back 2%nat)) (at_back 7%nat))
                   (add32 (smallSigma0 (at_back 15%nat)) (at_back 16%nat))])
  end.

Definition round (s : chain) (kw : Z * Z) : chain :=
  let '(k, w) := kw in
  let t1 :=
    add32 (add32 (add32 (wh s) (bigSigma1 (we s))) (Ch (we s) (wf s) (wg s)))
          (add32 k w) in
  let t2 := add32 (bigSigma0 (wa s)) (Maj (wa s) (wb s) (wc s)) in
  {| wa := add32 t1 t2; wb := wa s; wc := wb s; wd := wc s;
     we := add32 (wd s) t1; wf := we s; wg := wf s; wh := wg s |}.

Definition compress (s : chain) (block : list Z) : chain :=
  let w := schedule 48 (block_words block) in
  let r := fold_left round (combine K w) s in
  {| wa := add32 (wa s) (wa r); wb := add32 (wb s) (wb r);
     wc := add32 (wc s) (wc r); wd := add32 (wd s) (wd r);
     we := add32 (we s) (we r); wf := add32 (wf s) (wf r);
     wg := add32 (wg s) (wg r); wh := add32 (wh s) (wh r) |}.

(** Modelled from the spec: the SHA-256 digest of a byte sequence. *)
Definition hash (msg : list Z) : chain :=
  let padded := pad msg in
  fold_left compress (pieces 64 (length padded / 64) padded) initial.

(** Lower-case hexadecimal output, as [digest('hex')] gives it. *)
Definition hex_digit (x : Z) : ascii :=
  nth (Z.to_nat (Z.land x 0xf))
    (String.list_ascii_of_string "0123456789abcdef") "0"%char.

Definition hex_word (x : Z) : list ascii :=
  map (fun i => hex_digit (Z.shiftr x (4 * Z.of_nat i))) (rev (seq 0 8)).

Definition chain_words (s : chain) : list Z :=
  [wa s; wb s; wc s; wd s; we s; wf s; wg s; wh s].

Definition bytes_of_string (s : string) : list Z :=
  map (fun c => Z.of_N (N_of_ascii c)) (String.list_ascii_of_string s).

(** Modelled from the spec: the SHA-256 digest of a text, in hexadecimal. *)
Definition digest_hex (s : string) : string :=
  String.string_of_list_ascii
    (concat (map hex_word (chain_words (hash (bytes_of_string s))))).
End sha256.

(* ===================================================================== *)
(** ** The schema combinators used by src/compiler/parser.ts *)
(* ===================================================================== *)

Module zod.

(** The zod library is not part of the repository. Its combinators are
    modelled as far as [parser.ts] uses them, after spec section 4.1:
    required fields, enum membership, a non-negative integer port, defaults
    for absent fields, additional keys ignored, and every offending field
    reported with its path and a message. *)

(** What [YAML.load] and [JSON.parse] return: a generic tree. An object is
    the list of its own properties. *)
#[warnings="-register-all"]
Inductive value :=
| VUndefined
| VNull
| VBool (b : bool)
| VNum (q : Q)
| VStr (s : string)
| VArr (items : list value)
| VObj (fields : list (string * value)).

(** [data[key]]: [undefined] when the property is absent. *)
Fixpoint prop (fields : list (string * value)) (key : string) : value :=
  match fields with
  | [] => VUndefined
  | (k, v) :: rest => if String.eqb k key then v else prop rest key
  end.

Definition typeName (v : value) : string :=
  match v with
  | VUndefined => "undefined"
  | VNull => "null"
  | VBool _ => "boolean"
  | VNum _ => "number"
  | VStr _ => "string"
  | VArr _ => "array"
  | VObj _ => "object"
  end.

(** An element of [ZodIssue.path]: a property name or an array index. *)
Inductive PathSeg := Key (k : string) | Index (i : nat).

Inductive IssueCode :=
| invalid_type (expected received : string)
| invalid_enum_value (options : list string) (received : string)
| too_small (minimum : Q) (inclusive : bool).

Record ZodIssue := {
  code : IssueCode;
  path : list PathSeg;
  message : string
}.

(** The result of [safeParse]: [{success: true, data}] or
    [{success: false, error: {issues}}]. *)
Inductive SafeParseReturn (A : Type) :=
| success (data : A)
| failure (issues : list ZodIssue).
Arguments success {A} data.
Arguments failure {A} issues.

Definition ZodType (A : Type) := list PathSeg -> value -> SafeParseReturn A.

Inductive NumberCheck := check_int | check_min (minimum : Q) (inclusive : bool).

(** [Number.isInteger]. *)
Definition isInteger (q : Q) : bool :=
  (Z.rem (Qnum q) (Zpos (Qden q)) =? 0)%Z.

(** Modelled from the spec: how zod merges the results of independent
    sub-parses; the issues of all of them are kept, in order. *)
Definition ap {A B} (f : SafeParseReturn (A -> B)) (x : SafeParseReturn A)
  : SafeParseReturn B :=
  match f, x with
  | success g, success a => success (g a)
  | success _, failure j => failure j
  | failure i, success _ => failure i
  | failure i, failure j => failure (i ++ j)
  end.

(** Modelled from the spec: the merged results of the elements of an
    array. *)
Definition collect {A} (rs : list (SafeParseReturn A))
  : SafeParseReturn (list A) :=
  fold_right (fun r acc => ap (ap (success cons) r) acc) (success []) rs.

Section combinators.
(** The text of a message is given by the library's error map. *)
Variable errorMap : IssueCode -> string.

(** Modelled from the spec: an issue of the zod library, "offending field
    path and message". *)
Definition issue (path : list PathSeg) (c : IssueCode) : ZodIssue :=
  {| code := c; path := path; message := errorMap c |}.

(** Modelled from the spec: zod's report of a value of the wrong type; an
    absent required field is the value [undefined] of the wrong type. *)
Definition wrongType {A} (expected : string) (path : list PathSeg)
    (v : value) : SafeParseReturn A :=
  failure [issue path (invalid_type expected (typeName v))].

(** Modelled from the spec: zod's [z.string()]. *)
Definition z_string : ZodType string := fun path v =>
  match v with
  | VStr s => success s
  | _ => wrongType "string" path v
  end.

(** Modelled from the spec: zod's [z.boolean()]. *)
Definition z_boolean : ZodType bool := fun path v =>
  match v with
  | VBool b => success b
  | _ => wrongType "boolean" path v
  end.

(** Modelled from the spec: zod's checks [.int()] and [.min(m)]
    ([.nonnegative()] is [.min(0)], inclusive); all checks run. *)
Definition runCheck (path : list PathSeg) (q : Q) (c : NumberCheck)
  : list ZodIssue :=
  match c with
  | check_int =>
    if isInteger q then []
    else [issue path (invalid_type "integer" "float")]
  | check_min m inclusive =>
    if (if inclusive then Qle_bool m q
        else Qle_bool m q && negb (Qeq_bool m q))
    then [] else [issue path (too_small m inclusive)]
  end.

(** Modelled from the spec: zod's [z.number()] with its checks. *)
Definition z_number (checks : list NumberCheck) : ZodType Q :=
  fun path v =>
  match v with
  | VNum q =>
    match flat_map (runCheck path q) checks with
    | [] => success q
    | issues => failure issues
    end
  | _ => wrongType "number" path v
  end.

Definition joinValues (options : list string) : string :=
  String.concat " | " (map (fun o => "'" +:+ o +:+ "'") options).

Fixpoint assoc {A} (options : list (string * A)) (s : string) : option A :=
  match options with
  | [] => None
  | (k, a) :: rest => if String.eqb k s then Some a else assoc rest s
  end.

(** Modelled from the spec: zod's [z.enum([...])], each option given with
    the value it stands for. *)
Definition z_enum {A} (options : list (string * A)) : ZodType A :=
  fun path v =>
  match v with
  | VStr s =>
    match assoc options s with
    | Some a => success a
    | None => failure [issue path (invalid_enum_value (map fst options) s)]
    end
  | _ => wrongType (joinValues (map fst options)) path v
  end.

(** Modelled from the spec: zod's [z.array(element)]; the element at index
    [i] is parsed at the path extended by [i]. *)
Definition z_array {A} (element : ZodType A) : ZodType (list A) :=
  fun path v =>
  match v with
  | VArr items =>
    collect (imap (fun i x => element (path ++ [Index i]) x) items)
  | _ => wrongType "array" path v
  end.

(** Modelled from the spec: zod's [.default(d)]. *)
Definition z_default {A} (d : A) (inner : ZodType A) : ZodType A :=
  fun path v =>
  match v with
  | VUndefined => success d
  | _ => inner path v
  end.

(** Modelled from the spec: zod's [.optional()]. *)
Definition z_optional {A} (inner : ZodType A) : ZodType (option A) :=
  fun path v =>
  match v with
  | VUndefined => success None
  | _ => ap (success Some) (inner path v)
  end.

(** Modelled from the spec: zod's [z.object(shape)]; every key of the shape
    is parsed at the path extended by the key, and keys outside the shape
    are dropped. *)
Definition z_object {R}
    (shape : (forall A, string -> ZodType A -> SafeParseReturn A) ->
             SafeParseReturn R)
  : ZodType R :=
  fun path v =>
  match v with
  | VObj fields =>
    shape (fun A key t => t (path ++ [Key key]) (prop fields key))
  | _ => wrongType "object" path v
  end.

(** Modelled from the spec: zod's [schema.safeParse(data)], which starts
    at the empty path. *)
Definition safeParse {A} (schema : ZodType A) (data : value)
  : SafeParseReturn A :=
  schema [] data.

End combinators.

End zod.

Notation "f <*> x" := (zod.ap f x) (at level 61, left associativity).

(* ===================================================================== *)
(** ** src/compiler/parser.ts *)
(* ===================================================================== *)

Module parser.
Import ir.
Import zod.

Definition ParseFormat := SourceFormat.

Record ParseResult := {
  ir : option ConfigIR;
  errors : list string
}.

(** The outcome of the [try] block around [YAML.load] / [JSON.parse]. *)
Inductive LoadResult :=
| Loaded (parsed : value)
| Thrown (message : string).

(** What [configSchema] yields for one service and for a configuration.
    The schema's defaults have filled [public], [handlesPII], [network] and
    [dependsOn], so the [?? false] and [?? []] of [parseConfigToIR] never
    take their right-hand side. *)
Record ServiceData := {
  s_name : string;
  s_type : ServiceType;
  s_public : bool;
  s_handlesPII : bool;
  s_network : list NetworkBinding;
  s_dependsOn : list string;
  s_resourceLimits : option ResourceLimits
}.

Record ConfigData := { d_services : list ServiceData }.

Definition format_text (format : ParseFormat) : string :=
  match format with yaml => "yaml" | json => "json" end.

(** [String.prototype.toUpperCase] on ASCII text. *)
Definition upper (c : ascii) : ascii :=
  let n := nat_of_ascii c in
  if (97 <=? n)%nat && (n <=? 122)%nat then ascii_of_nat (n - 32) else c.

Fixpoint toUpperCase (s : string) : string :=
  match s with
  | EmptyString => EmptyString
  | String c rest => String (upper c) (toUpperCase rest)
  end.

(** [Array.prototype.join]. *)
Definition join (sep : string) (l : list string) : string :=
  String.concat sep l.

(** [String.prototype.slice(from, to)] for [0 <= from <= to]. *)
Definition slice (from to : nat) (s : string) : string :=
  String.substring from (to - from) s.

(** How [path.join('.')] prints one element of a path. *)
Definition seg_text (p : PathSeg) : string :=
  match p with
  | Key k => k
  | Index i => pretty i
  end.

Section parseConfigToIR.
(** The two deserializers and zod's message table are libraries. *)
Variable YAML_load : string -> LoadResult.
Variable JSON_parse : string -> LoadResult.
Variable errorMap : IssueCode -> string.

Definition networkBindingSchema : ZodType NetworkBinding :=
  z_object errorMap (fun field =>
    success Build_NetworkBinding
      <*> field _ "host" (z_string errorMap)
      <*> field _ "port"
            (z_number errorMap [check_int; check_min 0%Q true])
      <*> field _ "protocol"
            (z_enum errorMap
               [("http", http); ("https", https); ("tcp", tcp)])).

(** [.partial()] makes every key optional, which both already are. *)
Definition resourceLimitsSchema : ZodType (option ResourceLimits) :=
  z_optional
    (z_object errorMap (fun field =>
       success Build_ResourceLimits
         <*> field _ "cpu" (z_optional (z_number errorMap []))
         <*> field _ "memoryMb" (z_optional (z_number errorMap [])))).

Definition serviceSchema : ZodType ServiceData :=
  z_object errorMap (fun field =>
    success Build_ServiceData
      <*> field _ "name" (z_string errorMap)
      <*> field _ "type"
            (z_enum errorMap
               [("api", api); ("db", db); ("queue", queue);
                ("cache", cache)])
      <*> field _ "public" (z_default false (z_boolean errorMap))
      <*> field _ "handlesPII" (z_default false (z_boolean errorMap))
      <*> field _ "network"
            (z_default [] (z_array errorMap networkBindingSchema))
      <*> field _ "dependsOn"
            (z_default [] (z_array errorMap (z_string errorMap)))
      <*> field _ "resourceLimits" resourceLimitsSchema).

Definition configSchema : ZodType ConfigData :=
  z_object errorMap (fun field =>
    success Build_ConfigData
      <*> field _ "services" (z_array errorMap serviceSchema)).

Definition parseConfigToIR (rawConfig : string) (format : ParseFormat)
  : ParseResult :=
  let errors : list string := [] in
  match
    match format with
    | yaml => YAML_load rawConfig
    | json => JSON_parse rawConfig
    end
  with
  | Thrown msg =>
    let errors :=
      errors ++
      ["Failed to parse " +:+ toUpperCase (format_text format) +:+ ": "
         +:+ msg] in
    {| ir := None; errors := errors |}
  | Loaded parsed =>
    match safeParse configSchema parsed with
    | failure issues =>
      let errors :=
        errors ++
        ["Schema validation failed: " +:+
           join "; "
             (map (fun e =>
                     join "." (map seg_text (path e)) +:+ ": "
                       +:+ message e)
                  issues)] in
      {| ir := None; errors := errors |}
    | success data =>
      let hash := slice 0 12 (sha256.digest_hex rawConfig) in
      let services :=
        map (fun s =>
               {| name := s_name s;
                  type := s_type s;
                  public := s_public s;
                  handlesPII := s_handlesPII s;
                  network :=
                    map (fun n =>
                           {| host := host n;
                              port := port n;
                              protocol := protocol n |})
                        (s_network s);
                  dependsOn := s_dependsOn s;
                  resourceLimits := s_resourceLimits s |})
            (d_services data) in
      let ir :=
        {| services := services;
           metadata :=
             Some {| sourceFormat := format; rawHash := Some hash |} |} in
      {| ir := Some ir; errors := errors |}
    end
  end.

End parseConfigToIR.

End parser.

(* ===================================================================== *)
(** ** src/cli/safeconfig-cli.ts *)
(* ===================================================================== *)

Module cli.
Import ir invariants parser.

(** A line written by [console.log] (standard output) or by
    [console.error] (standard error). *)
Inductive Output := Log (line : string) | Err (line : string).

(** How a piece of the program ends: it goes on with a value, it calls
    [process.exit], or it throws. *)
Inductive Outcome (A : Type) :=
| Done (a : A)
| Exited (code : nat)
| Raised (shown : string).
Arguments Done {A} a.
Arguments Exited {A} code.
Arguments Raised {A} shown.

(** A piece of the program: what it writes, and how it ends. *)
Definition Proc (A : Type) : Type := list Output * Outcome A.

Definition ret {A} (a : A) : Proc A := ([], Done a).

Definition bind {A B} (c : Proc A) (k : A -> Proc B) : Proc B :=
  match c with
  | (out, Done a) => let '(out', r) := k a in (out ++ out', r)
  | (out, Exited code) => (out, Exited code)
  | (out, Raised shown) => (out, Raised shown)
  end.

Notation "x <- c ;; k" := (bind c (fun x => k))
  (at level 100, c at next level, right associativity).
Notation "c ;; k" := (bind c (fun _ => k))
  (at level 100, right associativity).

Definition console_log (line : string) : Proc unit := ([Log line], Done tt).
Definition console_error (line : string) : Proc unit := ([Err line], Done tt).
Definition process_exit {A} (code : nat) : Proc A := ([], Exited code).

(** [for (const x of l) body(x)]. *)
Fixpoint forEach {A} (l : list A) (body : A -> Proc unit) : Proc unit :=
  match l with
  | [] => ret tt
  | x :: rest => (body x ;; forEach rest body)
  end.

(** [!s] for a string that may be [undefined]. *)
Definition falsy (s : option string) : bool :=
  match s with
  | None => true
  | Some s => String.eqb s ""
  end.

(** [Array.prototype.indexOf]; [None] stands for -1. *)
Fixpoint indexOf (l : list string) (x : string) : option nat :=
  match l with
  | [] => None
  | y :: rest =>
    if String.eqb y x then Some 0
    else match indexOf rest x with
         | Some i => Some (S i)
         | None => None
         end
  end.

(** The double quote character. *)
Definition dquote : string := String "034"%char "".

Definition printUsage : Proc unit :=
  console_log "SafeConfig CLI" ;;
  console_log "Usage:" ;;
  console_log "  safeconfig analyze <config-file> [--format yaml|json]" ;;
  console_log "" ;;
  console_log "Examples:" ;;
  console_log "  safeconfig analyze ./examples/sample-config.yaml --format yaml".

(** What [fs.readFileSync] does: it returns the text or throws. *)
Inductive ReadResult := Content (text : string) | ReadThrows (shown : string).

Section main.
(** The deserializers, zod's message table and the file system are outside
    the program: [resolve p] is [path.resolve(process.cwd(), p)]. *)
Variable YAML_load : string -> LoadResult.
Variable JSON_parse : string -> LoadResult.
Variable errorMap : zod.IssueCode -> string.
Variable resolve : string -> string.
Variable existsSync : string -> bool.
Variable readFileSync : string -> ReadResult.

(** The [--format] flag among the arguments after the file. *)
Definition formatOf (rest : list string) : Proc ParseFormat :=
  let format := yaml in
  match indexOf rest "--format" with
  | Some formatFlagIndex =>
    if negb (falsy (rest !! (formatFlagIndex + 1))) then
      let value := default "" (rest !! (formatFlagIndex + 1)) in
      if String.eqb value "yaml" then ret yaml
      else if String.eqb value "json" then ret json
      else
        (console_error
           ("Invalid format. Use " +:+ dquote +:+ "yaml" +:+ dquote
              +:+ " or " +:+ dquote +:+ "json" +:+ dquote +:+ ".") ;;
         process_exit 1)
    else ret format
  | None => ret format
  end.

Definition main (argv : list string) : Proc unit :=
  let command := argv !! 2 in
  let configPath := argv !! 3 in
  let rest := drop 4 argv in
  (if falsy command || bool_decide (command = Some "--help")
      || bool_decide (command = Some "-h")
   then (printUsage ;; process_exit 0) else ret tt) ;;
  (if negb (bool_decide (command = Some "analyze"))
   then (console_error ("Unknown command: " +:+ default "" command) ;;
         printUsage ;; process_exit 1)
   else ret tt) ;;
  (if falsy configPath
   then (console_error "Missing <config-file>" ;;
         printUsage ;; process_exit 1)
   else ret tt) ;;
  format <- formatOf rest ;;
  let absolutePath := resolve (default "" configPath) in
  (if negb (existsSync absolutePath)
   then (console_error ("File not found: " +:+ absolutePath) ;;
         process_exit 1)
   else ret tt) ;;
  raw <- match readFileSync absolutePath with
         | Content text => ret text
         | ReadThrows shown => ([], Raised shown)
         end ;;
  let parseResult :=
    parseConfigToIR YAML_load JSON_parse errorMap raw format in
  match parser.ir parseResult with
  | None =>
    console_error "Parse / schema errors:" ;;
    forEach (errors parseResult) (fun e => console_error ("  - " +:+ e)) ;;
    process_exit 1
  | Some ir =>
    let violations := checkInvariants ir in
    console_log
      ("Config hash: " +:+
         match metadata ir with
         | Some m => default "undefined" (rawHash m)
         | None => "undefined"
         end) ;;
    console_log ("Services: " +:+ pretty (length (services ir))) ;;
    console_log "" ;;
    if Nat.eqb (length violations) 0 then
      console_log "✅ No invariant violations found."
    else
      (console_log
         ("❌ Found " +:+ pretty (length violations) +:+ " violation(s):") ;;
       forEach violations (fun v =>
         console_log
           ("  [" +:+ toUpperCase (diff.Severity_text (severity v)) +:+ "] "
              +:+ id v +:+ " @ " +:+ serviceName v +:+ " -> "
              +:+ description v)))
  end.

(** The process as a whole: [main().catch(...)] reports what [main] throws
    and exits with 1; a [main] that returns lets the process end with 0. *)
Definition run (argv : list string) : list Output * nat :=
  match main argv with
  | (out, Done _) => (out, 0)
  | (out, Exited code) => (out, code)
  | (out, Raised shown) => (out ++ [Err ("Unexpected error: " +:+ shown)], 1)
  end.

End main.

(** The lines written to standard output, and to standard error. *)
Definition stdout (out : list Output) : list string :=
  flat_map (fun o => match o with Log line => [line] | Err _ => [] end) out.

Definition stderr (out : list Output) : list string :=
  flat_map (fun o => match o with Err line => [line] | Log _ => [] end) out.

End cli.

(* ===================================================================== *)
(** ** src/index.ts *)
(* ===================================================================== *)

Module server.
Import ir invariants diff parser.

(** A request body as the handlers look at it: [config] may be any value
    (its type is tested), [format] is absent (or otherwise falsy) or a
    [ParseFormat], as its declared type says. *)
Record AnalyzeRequestBody := {
  config : zod.value;
  format : option ParseFormat
}.

Record DiffRequestBody := {
  oldConfig : zod.value;
  newConfig : zod.value;
  d_format : option ParseFormat
}.

(** What [res.json(...)] sends. *)
Inductive ResponseBody :=
| ErrorBody (error : string)
| ErrorsBody (errors : list string)
| AnalyzeBody (ir : ConfigIR) (violations : list InvariantViolation)
              (errors : list string)
| DiffBody (oldIr newIr : ConfigIR)
           (oldViolations newViolations : list InvariantViolation)
           (diff : DiffResult) (errors : list string).

Record Response := {
  status : nat;
  json : ResponseBody
}.

(** [typeof v === 'string']. *)
Definition asString (v : zod.value) : option string :=
  match v with
  | zod.VStr s => Some s
  | _ => None
  end.

Section handlers.
Variable YAML_load : string -> LoadResult.
Variable JSON_parse : string -> LoadResult.
Variable errorMap : zod.IssueCode -> string.

(** [app.post('/api/analyze', ...)]. *)
Definition analyze (body : option AnalyzeRequestBody) : Response :=
  match body with
  | Some {| config := zod.VStr config; format := Some format |} =>
    let parseResult :=
      parseConfigToIR YAML_load JSON_parse errorMap config format in
    match parser.ir parseResult with
    | None => {| status := 400; json := ErrorsBody (errors parseResult) |}
    | Some ir =>
      let violations := checkInvariants ir in
      {| status := 200;
         json := AnalyzeBody ir violations (errors parseResult) |}
    end
  | _ =>
    {| status := 400;
       json :=
         ErrorBody
           ("config (string) and format (" +:+ cli.dquote +:+ "yaml"
              +:+ cli.dquote +:+ " | " +:+ cli.dquote +:+ "json"
              +:+ cli.dquote +:+ ") are required.") |}
  end.

(** [app.post('/api/diff', ...)]. *)
Definition diff (body : option DiffRequestBody) : Response :=
  match body with
  | Some {| oldConfig := zod.VStr oldConfig;
            newConfig := zod.VStr newConfig;
            d_format := Some format |} =>
    let oldParsed :=
      parseConfigToIR YAML_load JSON_parse errorMap oldConfig format in
    let newParsed :=
      parseConfigToIR YAML_load JSON_parse errorMap newConfig format in
    let errors := errors oldParsed ++ errors newParsed in
    match parser.ir oldParsed, parser.ir newParsed with
    | Some oldIr, Some newIr =>
      let oldViolations := checkInvariants oldIr in
      let newViolations := checkInvariants newIr in
      let diff := diffConfigs oldIr newIr oldViolations newViolations in
      {| status := 200;
         json :=
           DiffBody oldIr newIr oldViolations newViolations diff errors |}
    | _, _ => {| status := 400; json := ErrorsBody errors |}
    end
  | _ =>
    {| status := 400;
       json :=
         ErrorBody
           ("oldConfig, newConfig (strings) and format (" +:+ cli.dquote
              +:+ "yaml" +:+ cli.dquote +:+ " | " +:+ cli.dquote +:+ "json"
              +:+ cli.dquote +:+ ") are required.") |}
  end.

End handlers.

End server.

(* ===================================================================== *)
(** ** Notions used to state the properties *)
(* ===================================================================== *)

Module invariants_notions.
Import ir invariants.

(** When the TLS rule is meant to fire. *)
Definition R2_condition (service : Service) : Prop :=
  public service = true /\
  (exists n, n ∈ network service /\ protocol n = http) /\
  (forall n, n ∈ network service -> protocol n <> https).

(** The violations of one service, rule by rule. *)
Definition violationsOf (svc : Service) : list InvariantViolation :=
  option_list (ruleNoPublicDatabases svc)
  ++ option_list (rulePublicServicesRequireTLS svc)
  ++ option_list (ruleNoPIIPublicExposure svc)
  ++ option_list (ruleResourceLimitsDefined svc).

End invariants_notions.

Module diff_notions.
Import ir invariants.
Local Open Scope nat_scope.

(** The violations of a list that are attributed to a service name. *)
Definition attributed (name : string) (vs : list InvariantViolation)
  : list InvariantViolation :=
  filter (fun v => serviceName v = name) vs.

(** The violation count of a name in a violation list. *)
Definition countFor (name : string) (vs : list InvariantViolation) : nat :=
  length (attributed name vs).

(** The names [diffConfigs] visits: those of the services of either
    configuration. *)
Definition namesOf (oldIR newIR : ConfigIR) : list string :=
  map name (services oldIR) ++ map name (services newIR).

(** The first message of a change, by the old and the new count. *)
Definition countsMessage (oldCount newCount : nat) : string :=
  if oldCount =? 0 then pretty newCount +:+ " new violation(s) introduced."
  else if newCount =? 0 then pretty oldCount +:+ " violation(s) resolved."
  else if oldCount <? newCount then
    "Violations increased from " +:+ pretty oldCount +:+ " to "
      +:+ pretty newCount +:+ "."
  else if newCount <? oldCount then
    "Violations decreased from " +:+ pretty oldCount +:+ " to "
      +:+ pretty newCount +:+ "."
  else "Violations count unchanged (" +:+ pretty newCount +:+ ").".

(** The second message: the current violations, when there are some. *)
Definition currentMessages (newVs : list InvariantViolation) : list string :=
  match newVs with
  | [] => []
  | _ =>
    ["Current violations: " +:+
       diff.join ", "
         (map (fun v =>
                 id v +:+ " (" +:+ diff.Severity_text (severity v) +:+ ")")
              newVs)]
  end.

Definition impactOf (oldCount newCount : nat) : diff.RiskImpact :=
  if oldCount <? newCount then diff.risk_increase
  else if newCount <? oldCount then diff.risk_decrease
  else diff.neutral.

(** The change reported for a name, from the violations attributed to it. *)
Definition changeFor (name : string)
    (oldVs newVs : list InvariantViolation) : diff.ServiceChange :=
  {| diff.serviceName := name;
     diff.messages :=
       countsMessage (length oldVs) (length newVs) :: currentMessages newVs;
     diff.riskImpact := impactOf (length oldVs) (length newVs) |}.

(** The changes one visited name adds: none when it has no violation on
    either side. *)
Definition changesFor (oldViolations newViolations : list InvariantViolation)
    (name : string) : list diff.ServiceChange :=
  if (countFor name oldViolations =? 0) && (countFor name newViolations =? 0)
  then []
  else [changeFor name (attributed name oldViolations)
                       (attributed name newViolations)].

End diff_notions.

Module parser_notions.
Import ir zod parser.

(** [sub] occurs in [s]. *)
Definition contains (s sub : string) : Prop :=
  exists pre post, s = pre +:+ sub +:+ post.

(** The text of one issue in the aggregated error:
    [`${e.path.join('.')}: ${e.message}`]. *)
Definition issueLine (e : ZodIssue) : string :=
  join "." (map seg_text (path e)) +:+ ": " +:+ message e.

Definition is_hex (c : ascii) : Prop :=
  c ∈ String.list_ascii_of_string "0123456789abcdef".

(** The issues of a result; none for a success. *)
Definition issuesOf {A} (r : SafeParseReturn A) : list ZodIssue :=
  match r with
  | success _ => []
  | failure issues => issues
  end.

(** The [rawHash] recorded in a configuration, if any. *)
Definition rawHashOf (cfg : ConfigIR) : option string :=
  match metadata cfg with
  | Some m => rawHash m
  | None => None
  end.

End parser_notions.

Module schema_notions.
Import ir zod.

(** The run-time text of a [ServiceType] value. *)
Definition ServiceType_text (t : ServiceType) : string :=
  match t with
  | api => "api"
  | db => "db"
  | queue => "queue"
  | cache => "cache"
  end.

(** A field with a default: absent and defaulted, or present with the
    value the IR holds. *)
Definition defaulted (v : value) (d b : bool) : Prop :=
  (v = VUndefined /\ b = d) \/ v = VBool b.

(** A port as the schema accepts it: a non-negative integer. *)
Definition port_ok (q : Q) : Prop :=
  isInteger q = true /\ (0 <= q)%Q.

End schema_notions.

Module cli_notions.
Import ir invariants parser cli.

(** The six lines of [printUsage]. *)
Definition usageLines : list string :=
  ["SafeConfig CLI"; "Usage:";
   "  safeconfig analyze <config-file> [--format yaml|json]"; "";
   "Examples:";
   "  safeconfig analyze ./examples/sample-config.yaml --format yaml"].

(** The message for a format that is neither yaml nor json. *)
Definition invalidFormat : string :=
  "Invalid format. Use " +:+ dquote +:+ "yaml" +:+ dquote
    +:+ " or " +:+ dquote +:+ "json" +:+ dquote +:+ ".".

(** The line printed for one violation. *)
Definition violationLine (v : InvariantViolation) : string :=
  "  [" +:+ toUpperCase (diff.Severity_text (severity v)) +:+ "] "
    +:+ id v +:+ " @ " +:+ serviceName v +:+ " -> " +:+ description v.

(** The first line of a report. *)
Definition hashLine (cfg : ConfigIR) : string :=
  "Config hash: " +:+
    match metadata cfg with
    | Some m => default "undefined" (rawHash m)
    | None => "undefined"
    end.

(** The lines of a report after the blank line. *)
Definition violationLines (violations : list InvariantViolation)
  : list string :=
  match violations with
  | [] => ["✅ No invariant violations found."]
  | _ =>
    ("❌ Found " +:+ pretty (length violations) +:+ " violation(s):")
      :: map violationLine violations
  end.

End cli_notions.

(* ===================================================================== *)
(** ** Sample configurations *)
(* ===================================================================== *)

Module samples.
Import ir.

(** Scenario 1: a public database without network bindings. *)
Definition user_db : Service :=
  {| name := "user-db"; type := db; public := true; handlesPII := false;
     network := []; dependsOn := [];
     resourceLimits := Some {| cpu := Some 1%Q; memoryMb := Some 512%Q |} |}.

(** Scenario 2: a public API that listens on plain HTTP, without limits. *)
Definition api_gw : Service :=
  {| name := "api-gw"; type := api; public := true; handlesPII := false;
     network := [{| host := "0.0.0.0"; port := 80%Q; protocol := http |}];
     dependsOn := []; resourceLimits := None |}.

(** Scenario 3: a cache that is public over HTTP without limits, and the
    same cache made private and given limits. *)
Definition cache1_old : Service :=
  {| name := "cache1"; type := cache; public := true; handlesPII := false;
     network := [{| host := "10.0.0.5"; port := 8080%Q; protocol := http |}];
     dependsOn := []; resourceLimits := None |}.

Definition cache1_new : Service :=
  {| name := "cache1"; type := cache; public := false; handlesPII := false;
     network := [{| host := "10.0.0.5"; port := 8080%Q; protocol := http |}];
     dependsOn := [];
     resourceLimits := Some {| cpu := Some 2%Q; memoryMb := Some 256%Q |} |}.

(** The same cache on another host and port: no violation either. *)
Definition cache1_moved : Service :=
  {| name := "cache1"; type := cache; public := false; handlesPII := true;
     network := [{| host := "10.0.0.9"; port := 6379%Q; protocol := tcp |}];
     dependsOn := ["user-db"];
     resourceLimits := Some {| cpu := Some 4%Q; memoryMb := Some 1024%Q |} |}.

(** Two entries that share the name "worker", and a single compliant one. *)
Definition worker_a : Service :=
  {| name := "worker"; type := queue; public := false; handlesPII := false;
     network := []; dependsOn := []; resourceLimits := None |}.

Definition worker_b : Service :=
  {| name := "worker"; type := api; public := true; handlesPII := true;
     network := []; dependsOn := [];
     resourceLimits := Some {| cpu := Some 1%Q; memoryMb := None |} |}.

Definition worker_ok : Service :=
  {| name := "worker"; type := queue; public := false; handlesPII := false;
     network := []; dependsOn := [];
     resourceLimits := Some {| cpu := Some 1%Q; memoryMb := Some 128%Q |} |}.

Definition config (l : list Service) : ConfigIR :=
  {| services := l; metadata := None |}.

End samples.

Module parser_samples.
Import ir zod parser.

(** Scenario 1 as YAML text (flow style), and the tree [YAML.load] gives. *)
Definition scenario1_yaml : string :=
  "{services: [{name: user-db, type: db, public: true, network: [], dependsOn: [], resourceLimits: {cpu: 1, memoryMb: 512}}]}".

Definition scenario1_tree : value :=
  VObj [("services",
         VArr [VObj [("name", VStr "user-db");
                     ("type", VStr "db");
                     ("public", VBool true);
                     ("network", VArr []);
                     ("dependsOn", VArr []);
                     ("resourceLimits",
                      VObj [("cpu", VNum 1%Q); ("memoryMb", VNum 512%Q)])]])].

(** Scenario 5: a service without the required [type]. *)
Definition scenario5_yaml : string :=
  "{services: [{name: user-db, public: true}]}".

Definition scenario5_tree : value :=
  VObj [("services",
         VArr [VObj [("name", VStr "user-db"); ("public", VBool true)]])].

(** Two texts for the empty configuration. *)
Definition empty_flow_yaml : string := "{services: []}".
Definition empty_block_yaml : string := "services: []".
Definition empty_tree : value := VObj [("services", VArr [])].

(** [YAML.load] on the sample texts; any other text counts as malformed. *)
Definition sample_YAML_load (raw : string) : LoadResult :=
  if String.eqb raw scenario1_yaml then Loaded scenario1_tree
  else if String.eqb raw scenario5_yaml then Loaded scenario5_tree
  else if String.eqb raw empty_flow_yaml then Loaded empty_tree
  else if String.eqb raw empty_block_yaml then Loaded empty_tree
  else Thrown "unexpected end of the stream within a double quoted scalar".

(** [JSON.parse] on the two shortest JSON texts. *)
Definition sample_JSON_parse (raw : string) : LoadResult :=
  if String.eqb raw "{}" then Loaded (VObj [])
  else if String.eqb raw "[]" then Loaded (VArr [])
  else Thrown "Unexpected end of JSON input".

(** The messages of zod 3's default error map, for the codes in use. *)
Definition sample_errorMap (c : IssueCode) : string :=
  match c with
  | invalid_type expected received =>
    if String.eqb received "undefined" then "Required"
    else "Expected " +:+ expected +:+ ", received " +:+ received
  | invalid_enum_value options received =>
    "Invalid enum value. Expected " +:+ joinValues options
      +:+ ", received '" +:+ received +:+ "'"
  | too_small minimum inclusive =>
    "Number must be greater than " +:+
      (if inclusive then "or equal to " else "") +:+ pretty (Qnum minimum)
  end.

Definition sample_parse : string -> ParseFormat -> ParseResult :=
  parseConfigToIR sample_YAML_load sample_JSON_parse sample_errorMap.

End parser_samples.

Module more_samples.
Import ir zod parser.

(** Scenario 2 as YAML text (flow style), and the tree [YAML.load] gives. *)
Definition scenario2_yaml : string :=
  "{services: [{name: api-gw, type: api, public: true, network: [{host: 0.0.0.0, port: 80, protocol: http}], handlesPII: false}]}".

Definition scenario2_tree : value :=
  VObj [("services",
         VArr [VObj [("name", VStr "api-gw");
                     ("type", VStr "api");
                     ("public", VBool true);
                     ("network",
                      VArr [VObj [("host", VStr "0.0.0.0");
                                  ("port", VNum 80%Q);
                                  ("protocol", VStr "http")]]);
                     ("handlesPII", VBool false)]])].

(** [YAML.load] on the sample texts, Scenario 2 included. *)
Definition sample_YAML_load2 (raw : string) : LoadResult :=
  if String.eqb raw scenario2_yaml then Loaded scenario2_tree
  else parser_samples.sample_YAML_load raw.

(** A database that is private but bound to every interface. *)
Definition open_db : Service :=
  {| name := "orders-db"; type := db; public := false; handlesPII := true;
     network := [{| host := "0.0.0.0"; port := 5432%Q; protocol := tcp |}];
     dependsOn := [];
     resourceLimits := Some {| cpu := Some 2%Q; memoryMb := Some 2048%Q |} |}.

(** A file system with two files, and a working directory. *)
Definition sample_resolve (p : string) : string := "/work/" +:+ p.

Definition sample_existsSync (p : string) : bool :=
  String.eqb p "/work/api.yaml" || String.eqb p "/work/broken.yaml".

Definition sample_readFileSync (p : string) : cli.ReadResult :=
  if String.eqb p "/work/api.yaml" then cli.Content scenario2_yaml
  else if String.eqb p "/work/broken.yaml"
  then cli.Content parser_samples.scenario5_yaml
  else cli.ReadThrows "Error: ENOENT: no such file or directory".

End more_samples.

(* ===================================================================== *)
(** ** Properties of the invariant engine *)
(* ===================================================================== *)

Module invariants_props.
Import ir invariants invariants_notions samples.

Lemma some_spec {A} (p : A -> bool) (l : list A) :
  some p l = true <-> exists x, x ∈ l /\ p x = true.
Proof.
  unfold some. rewrite existsb_exists.
  split; intros (x & Hx & Hp); exists x; split; auto;
    by apply list_elem_of_In.
Qed.

Lemma some_false_spec {A} (p : A -> bool) (l : list A) :
  some p l = false <-> forall x, x ∈ l -> p x = false.
Proof.
  rewrite <- not_true_iff_false, some_spec. split.
  - intros Hno x Hx. destruct (p x) eqn:E; [|done].
    exfalso. apply Hno. eauto.
  - intros Hall (x & Hx & Hp). rewrite (Hall x Hx) in Hp. done.
Qed.

(** What the database rule computes: a database fires exactly when it has
    at least one binding and either is public or has a binding on
    0.0.0.0. *)
Lemma ruleNoPublicDatabases_fires (service : Service) :
  is_Some (ruleNoPublicDatabases service) <->
  type service = db /\
  exists n, n ∈ network service /\
            (host n = "0.0.0.0" \/ public service = true).
Proof.
  unfold ruleNoPublicDatabases.
  case_bool_decide as Ety; simpl;
    [| split; [by intros [? [=]] | by intros [? _]]].
  destruct (some _ (network service)) eqn:Esome; simpl.
  - apply some_spec in Esome as (n & Hn & Hp).
    split; [intros _ | by eauto]. split; [done|].
    exists n. split; [done|].
    apply orb_true_iff in Hp as [Hp | Hp]; [left | by right].
    by apply String.eqb_eq.
  - split; [intros [? [=]] | intros (_ & n & Hn & Hor)].
    pose proof (proj1 (some_false_spec _ _) Esome n Hn) as Hf.
    apply orb_false_iff in Hf as [Hh Hpub].
    destruct Hor as [Hhost | Hp]; [|congruence].
    apply String.eqb_neq in Hh. done.
Qed.

(** C1: on the configuration of Scenario 1 (a database with [public: true]
    and no network bindings) the database rule does not fire and the
    evaluation returns no violation at all, although the service is a
    public database. *)
Theorem R1_public_db_without_bindings :
  public user_db = true /\ type user_db = db /\
  ruleNoPublicDatabases user_db = None /\
  checkInvariants (config [user_db]) = [].
Proof. repeat split. Qed.

(** C2: the TLS rule fires if and only if the service is public, has at
    least one http binding and has no https binding; the violation it
    reports is R2_PUBLIC_REQUIRES_TLS, of severity high, attributed to the
    service; and a service without any http binding (only tcp bindings, or
    no binding) never triggers it. *)
Theorem R2_fires_iff (service : Service) :
  (is_Some (rulePublicServicesRequireTLS service) <-> R2_condition service)
  /\ (forall v, rulePublicServicesRequireTLS service = Some v ->
        id v = "R2_PUBLIC_REQUIRES_TLS" /\ severity v = high /\
        serviceName v = name service)
  /\ ((forall n, n ∈ network service -> protocol n <> http) ->
        rulePublicServicesRequireTLS service = None)
  /\ (network service = [] -> rulePublicServicesRequireTLS service = None).
Proof.
  assert (Hiff : is_Some (rulePublicServicesRequireTLS service)
                 <-> R2_condition service).
  { unfold rulePublicServicesRequireTLS, R2_condition.
    destruct (public service); simpl;
      [| split; [intros [? [=]] | intros [[=] _]]].
    destruct (some (fun n => bool_decide (protocol n = https)) _) eqn:Es.
    - apply some_spec in Es as (n & Hn & Hp). apply bool_decide_eq_true in Hp.
      split; [intros [? [=]] | intros (_ & _ & Hno)].
      exfalso. by apply (Hno n).
    - pose proof (proj1 (some_false_spec _ _) Es) as Hno.
      destruct (some (fun n => bool_decide (protocol n = http)) _) eqn:Eh;
        simpl.
      + apply some_spec in Eh as (n & Hn & Hp).
        apply bool_decide_eq_true in Hp.
        split; [intros _ | by eauto]. repeat split; [by eauto|].
        intros m Hm. specialize (Hno m Hm).
        by apply bool_decide_eq_false in Hno.
      + pose proof (proj1 (some_false_spec _ _) Eh) as Hnh.
        split; [intros [? [=]] | intros (_ & (n & Hn & Hp) & _)].
        specialize (Hnh n Hn). apply bool_decide_eq_false in Hnh. done. }
  assert (Hnone : (forall n, n ∈ network service -> protocol n <> http) ->
                  rulePublicServicesRequireTLS service = None).
  { intros Hno.
    destruct (rulePublicServicesRequireTLS service) eqn:E; [|done].
    destruct (proj1 Hiff) as (_ & (n & Hn & Hp) & _); [by eauto|].
    by destruct (Hno n Hn). }
  split; [exact Hiff|]. split; [|split; [exact Hnone|]].
  - intros v. unfold rulePublicServicesRequireTLS.
    destruct (negb _); [done|]. destruct (some _ _); [done|].
    simpl. destruct (negb _); [done|]. by intros [= <-].
  - intros Hnil. apply Hnone. rewrite Hnil. intros n Hn.
    by apply elem_of_nil in Hn.
Qed.

Lemma applyRule_app svc violations rule :
  applyRule svc violations rule = violations ++ option_list (rule svc).
Proof.
  unfold applyRule. destruct (rule svc); simpl; [done|].
  by rewrite app_nil_r.
Qed.

Lemma checkService_app violations svc :
  checkService violations svc = violations ++ violationsOf svc.
Proof.
  unfold checkService, RULES, violationsOf. simpl.
  rewrite !applyRule_app. by rewrite <- !app_assoc.
Qed.

Lemma fold_checkService l : forall violations,
  fold_left checkService l violations
  = violations ++ flat_map violationsOf l.
Proof.
  induction l as [|svc l IH]; intros violations; simpl.
  - by rewrite app_nil_r.
  - rewrite IH, checkService_app. by rewrite <- app_assoc.
Qed.

Lemma checkInvariants_flat_map (ir : ConfigIR) :
  checkInvariants ir = flat_map violationsOf (services ir).
Proof. unfold checkInvariants. by rewrite fold_checkService. Qed.

Lemma rule_attribution svc rule v :
  rule ∈ RULES -> rule svc = Some v -> serviceName v = name svc.
Proof.
  unfold RULES. rewrite !elem_of_cons, elem_of_nil.
  intros [-> | [-> | [-> | [-> | []]]]].
  - unfold ruleNoPublicDatabases.
    destruct (negb _); [done|]. simpl. destruct (negb _); [done|].
    by intros [= <-].
  - unfold rulePublicServicesRequireTLS.
    destruct (negb _); [done|]. destruct (some _ _); [done|]. simpl.
    destruct (negb _); [done|]. by intros [= <-].
  - unfold ruleNoPIIPublicExposure.
    destruct (negb _); [done|]. destruct (negb _); [done|].
    by intros [= <-].
  - unfold ruleResourceLimitsDefined. simpl.
    destruct (match resourceLimits svc with Some _ => _ | None => _ end);
      [done|]. by intros [= <-].
Qed.

Lemma option_list_elem {A} (o : option A) (x : A) :
  x ∈ option_list o -> o = Some x.
Proof.
  destruct o as [y|]; simpl; intros H.
  - apply list_elem_of_singleton in H. by subst.
  - by apply elem_of_nil in H.
Qed.

Lemma violationsOf_attribution svc v :
  v ∈ violationsOf svc -> serviceName v = name svc.
Proof.
  unfold violationsOf. rewrite !elem_of_app.
  intros [H | [H | [H | H]]];
    apply option_list_elem in H;
    (eapply rule_attribution; [|exact H]); unfold RULES;
    rewrite !elem_of_cons; auto.
Qed.

(** C3: evaluation applies the four rules, in the order R1, R2, R3, R4, to
    every service in the order of [ir.services], and returns the
    concatenation of what they report; no rule stops another. On the
    service of Scenario 2 (public api, one http binding, no limits) both
    R2_PUBLIC_REQUIRES_TLS and R4_RESOURCE_LIMITS are reported. *)
Theorem checkInvariants_all_rules_in_order :
  (forall ir : ConfigIR,
      checkInvariants ir
      = flat_map
          (fun svc =>
             option_list (ruleNoPublicDatabases svc)
             ++ option_list (rulePublicServicesRequireTLS svc)
             ++ option_list (ruleNoPIIPublicExposure svc)
             ++ option_list (ruleResourceLimitsDefined svc))
          (services ir))
  /\ map id (checkInvariants (config [api_gw]))
     = ["R2_PUBLIC_REQUIRES_TLS"; "R4_RESOURCE_LIMITS"]
  /\ rulePublicServicesRequireTLS api_gw <> None
  /\ ruleResourceLimitsDefined api_gw <> None.
Proof.
  split; [exact checkInvariants_flat_map|].
  repeat split; done.
Qed.

(** C9: every violation returned by [checkInvariants] is attributed to a
    service of the evaluated configuration: its [serviceName] is the
    [name] of some element of [ir.services]. *)
Theorem violations_name_present_services (ir : ConfigIR) :
  Forall
    (fun v => exists svc, svc ∈ services ir /\ serviceName v = name svc)
    (checkInvariants ir).
Proof.
  apply Forall_forall. intros v Hv.
  rewrite checkInvariants_flat_map in Hv.
  apply list_elem_of_In, in_flat_map in Hv as (svc & Hsvc & Hin).
  exists svc. split; [by apply list_elem_of_In|].
  apply violationsOf_attribution. by apply list_elem_of_In.
Qed.

(** The public API of Scenario 2 as an instance of the TLS rule. *)
Lemma R2_fires_iff_witness : is_Some (rulePublicServicesRequireTLS api_gw).
Proof.
  apply (proj1 (R2_fires_iff api_gw)). unfold R2_condition. simpl.
  split; [done|]. split.
  - eexists. split; [apply elem_of_cons; by left | done].
  - intros n Hn. apply list_elem_of_singleton in Hn. by subst.
Defined.

(** X1: the PII rule fires if and only if the service handles PII and is
    public; it reports R3_NO_PII_PUBLIC, of severity high. *)
Theorem R3_fires_iff (service : Service) :
  (is_Some (ruleNoPIIPublicExposure service)
   <-> handlesPII service = true /\ public service = true)
  /\ (forall v, ruleNoPIIPublicExposure service = Some v ->
        id v = "R3_NO_PII_PUBLIC" /\ severity v = high /\
        serviceName v = name service).
Proof.
  unfold ruleNoPIIPublicExposure.
  destruct (handlesPII service), (public service); simpl;
    (split; [split|]);
    try (by intros [? [=]]); try (by intros [[=] ?]); try (by intros v [=]).
  by intros v [= <-].
Qed.

(** X2: the limits rule fires if and only if [resourceLimits] is absent, or
    its [cpu] is undefined, or its [memoryMb] is undefined; it reports
    R4_RESOURCE_LIMITS, of severity medium. *)
Theorem R4_fires_iff (service : Service) :
  (is_Some (ruleResourceLimitsDefined service)
   <-> resourceLimits service = None
       \/ exists limits, resourceLimits service = Some limits
                         /\ (cpu limits = None \/ memoryMb limits = None))
  /\ (forall v, ruleResourceLimitsDefined service = Some v ->
        id v = "R4_RESOURCE_LIMITS" /\ severity v = medium /\
        serviceName v = name service).
Proof.
  unfold ruleResourceLimitsDefined.
  destruct (resourceLimits service) as [[[c|] [m|]]|]; simpl;
    (split; [split|]);
    try (by intros v [= <-]); try (by intros v [=]); try (by eauto).
  intros [[=] | (l & [= <-] & [[=] | [=]])].
Qed.


End invariants_props.

(* ===================================================================== *)
(** ** Properties of the drift differencer *)
(* ===================================================================== *)

Module diff_props.
Import ir invariants diff diff_notions samples.
Local Open Scope nat_scope.

Lemma indexByService_fold name vs :
  forall m : gmap string (list InvariantViolation),
    getOrEmpty
      (fold_left
         (fun map v =>
            let arr := getOrEmpty map (invariants.serviceName v) in
            <[invariants.serviceName v := arr ++ [v]]> map)
         vs m) name
    = getOrEmpty m name ++ attributed name vs.
Proof.
  unfold attributed.
  induction vs as [|v vs IH]; intros m; simpl.
  - by rewrite filter_nil, app_nil_r.
  - rewrite IH. unfold getOrEmpty at 1.
    destruct (decide (invariants.serviceName v = name)) as [Heq | Hne].
    + rewrite Heq, lookup_insert_eq. simpl.
      rewrite filter_cons_True by done. by rewrite <- app_assoc.
    + rewrite lookup_insert_ne by done.
      rewrite filter_cons_False by done. done.
Qed.

(** The index holds, under a name, all violations attributed to that name,
    in their order in the list. *)
Lemma indexByService_get vs name :
  getOrEmpty (indexByService vs) name = attributed name vs.
Proof.
  unfold indexByService. rewrite indexByService_fold.
  unfold getOrEmpty. by rewrite lookup_empty.
Qed.

Lemma Set_add_elem s x y : y ∈ Set_add s x <-> y ∈ s \/ y = x.
Proof.
  unfold Set_add. case_bool_decide as Hin.
  - split; [by left | intros [H | ->]; done].
  - by rewrite elem_of_app, list_elem_of_singleton.
Qed.

Lemma Set_add_NoDup s x : NoDup s -> NoDup (Set_add s x).
Proof.
  unfold Set_add. intros Hs. case_bool_decide as Hin; [done|].
  apply NoDup_app. split; [done|]. split; [|apply NoDup_singleton].
  intros y Hy Hy'. apply list_elem_of_singleton in Hy'. by subst.
Qed.

Lemma Set_fold_elem l : forall s y,
  y ∈ fold_left Set_add l s <-> y ∈ s \/ y ∈ l.
Proof.
  induction l as [|x l IH]; intros s y; simpl.
  - rewrite elem_of_nil. tauto.
  - rewrite IH, Set_add_elem, elem_of_cons. tauto.
Qed.

Lemma Set_fold_NoDup l : forall s, NoDup s -> NoDup (fold_left Set_add l s).
Proof.
  induction l as [|x l IH]; intros s Hs; simpl; [done|].
  by apply IH, Set_add_NoDup.
Qed.

Lemma Set_new_elem l y : y ∈ Set_new l <-> y ∈ l.
Proof.
  unfold Set_new. rewrite Set_fold_elem, elem_of_nil. tauto.
Qed.

Lemma Set_new_NoDup l : NoDup (Set_new l).
Proof. apply Set_fold_NoDup, NoDup_nil_2. Qed.

Lemma currentMessages_length newVs :
  currentMessages newVs
  = if 0 <? length newVs then
      ["Current violations: " +:+
         diff.join ", "
           (map (fun v =>
                   id v +:+ " (" +:+ diff.Severity_text (severity v) +:+ ")")
                newVs)]
    else [].
Proof. by destruct newVs. Qed.

(** One turn of the loop, in terms of the violation lists themselves. *)
Lemma diffStep_spec oldViolations newViolations st name :
  diffStep (indexByService oldViolations) (indexByService newViolations)
           st name
  = {| st_totalNewViolations :=
         st_totalNewViolations st
         + (countFor name newViolations - countFor name oldViolations);
       st_totalResolvedViolations :=
         st_totalResolvedViolations st
         + (countFor name oldViolations - countFor name newViolations);
       st_changes :=
         st_changes st ++ changesFor oldViolations newViolations name |}.
Proof.
  unfold diffStep, changesFor, changeFor, countsMessage, impactOf.
  rewrite !indexByService_get, currentMessages_length.
  unfold countFor.
  generalize (length (attributed name oldViolations)) as o.
  generalize (length (attributed name newViolations)) as n.
  intros n o. destruct st as [tn tr cs]. simpl.
  destruct (Nat.eqb_spec o 0), (Nat.eqb_spec n 0); simpl.
  - subst. simpl. f_equal; [lia | lia | by rewrite app_nil_r].
  - subst. destruct (Nat.ltb_spec 0 n); [|lia]. simpl.
    f_equal; lia.
  - subst. destruct (Nat.ltb_spec 0 o); [|lia]. simpl.
    destruct (Nat.ltb_spec o 0); [lia|]. f_equal; lia.
  - destruct (Nat.ltb_spec 0 o); [|lia]. simpl.
    destruct (Nat.ltb_spec 0 n); [|lia].
    destruct (Nat.eqb_spec n o); simpl.
    + subst. rewrite Nat.ltb_irrefl. f_equal; lia.
    + destruct (Nat.ltb_spec o n); simpl; [f_equal; lia|].
      destruct (Nat.ltb_spec n o); [|lia]. f_equal; lia.
Qed.

Lemma diffStep_fold oldViolations newViolations names : forall st,
  fold_left
    (diffStep (indexByService oldViolations) (indexByService newViolations))
    names st
  = {| st_totalNewViolations :=
         st_totalNewViolations st
         + sum_list
             (map (fun name => countFor name newViolations
                               - countFor name oldViolations) names);
       st_totalResolvedViolations :=
         st_totalResolvedViolations st
         + sum_list
             (map (fun name => countFor name oldViolations
                               - countFor name newViolations) names);
       st_changes :=
         st_changes st
         ++ flat_map (changesFor oldViolations newViolations) names |}.
Proof.
  induction names as [|name names IH]; intros st; simpl.
  - destruct st; simpl. f_equal; [lia | lia | by rewrite app_nil_r].
  - rewrite IH, diffStep_spec. simpl. f_equal; [lia | lia |].
    by rewrite <- app_assoc.
Qed.

(** The result of [diffConfigs], in closed form. *)
Lemma diffConfigs_spec oldIR newIR oldViolations newViolations :
  diffConfigs oldIR newIR oldViolations newViolations
  = {| summary :=
         {| totalNewViolations :=
              sum_list
                (map (fun name => countFor name newViolations
                                  - countFor name oldViolations)
                     (Set_new (namesOf oldIR newIR)));
            totalResolvedViolations :=
              sum_list
                (map (fun name => countFor name oldViolations
                                  - countFor name newViolations)
                     (Set_new (namesOf oldIR newIR))) |};
       changes :=
         flat_map (changesFor oldViolations newViolations)
                  (Set_new (namesOf oldIR newIR)) |}.
Proof.
  unfold diffConfigs. rewrite diffStep_fold. reflexivity.
Qed.

Lemma changesFor_elem oldViolations newViolations name c :
  c ∈ changesFor oldViolations newViolations name <->
  (countFor name oldViolations <> 0 \/ countFor name newViolations <> 0) /\
  c = changeFor name (attributed name oldViolations)
                     (attributed name newViolations).
Proof.
  unfold changesFor.
  destruct (Nat.eqb_spec (countFor name oldViolations) 0) as [Ho | Ho],
           (Nat.eqb_spec (countFor name newViolations) 0) as [Hn | Hn];
    simpl; rewrite ?elem_of_nil, ?list_elem_of_singleton;
    split; try tauto; intros [[?|?] ?]; done.
Qed.

Lemma changes_elem oldIR newIR oldViolations newViolations c :
  c ∈ changes (diffConfigs oldIR newIR oldViolations newViolations) <->
  exists name,
    name ∈ namesOf oldIR newIR /\
    (countFor name oldViolations <> 0 \/ countFor name newViolations <> 0) /\
    c = changeFor name (attributed name oldViolations)
                       (attributed name newViolations).
Proof.
  rewrite diffConfigs_spec. simpl.
  rewrite list_elem_of_In, in_flat_map. split.
  - intros (name & Hin & Hc). exists name.
    rewrite <- list_elem_of_In, Set_new_elem in Hin.
    rewrite <- list_elem_of_In, changesFor_elem in Hc. tauto.
  - intros (name & Hin & Hc). exists name.
    rewrite <- !list_elem_of_In, Set_new_elem, changesFor_elem. tauto.
Qed.

Lemma changes_names oldViolations newViolations names :
  map serviceName (flat_map (changesFor oldViolations newViolations) names)
  = filter
      (fun name => countFor name oldViolations <> 0
                   \/ countFor name newViolations <> 0)
      names.
Proof.
  induction names as [|name names IH]; simpl; [done|].
  rewrite map_app, IH. unfold changesFor.
  destruct (Nat.eqb_spec (countFor name oldViolations) 0) as [Ho | Ho],
           (Nat.eqb_spec (countFor name newViolations) 0) as [Hn | Hn];
    simpl;
    (rewrite filter_cons_True by tauto) || (rewrite filter_cons_False by tauto);
    done.
Qed.

Lemma sum_list_split (f : string -> nat) name l :
  NoDup l -> name ∈ l ->
  sum_list (map f l)
  = f name + sum_list (map f (filter (fun other => other <> name) l)).
Proof.
  induction l as [|x l IH]; intros Hnd Hin.
  - by apply elem_of_nil in Hin.
  - apply NoDup_cons in Hnd as [Hx Hnd].
    destruct (decide (x = name)) as [-> | Hne].
    + rewrite filter_cons_False by (intros H; by apply H).
      simpl. f_equal.
      assert (Hall : filter (fun other => other <> name) l = l).
      { clear IH Hnd Hin. induction l as [|y l IHl]; [done|].
        apply not_elem_of_cons in Hx as [Hy Hx].
        rewrite filter_cons_True by done. by rewrite IHl. }
      by rewrite Hall.
    + rewrite filter_cons_True by done. simpl.
      apply elem_of_cons in Hin as [-> | Hin]; [done|].
      rewrite IH by done. lia.
Qed.

Lemma sum_list_zero (f : string -> nat) l :
  (forall x, f x = 0) -> sum_list (map f l) = 0.
Proof.
  intros Hf. induction l as [|x l IH]; simpl; [done|].
  rewrite Hf, IH. done.
Qed.

(** C6: comparing a configuration with itself, under one violation list,
    reports no new violation, no resolved violation, and only neutral
    changes. *)
Theorem diff_self_neutral (A : ConfigIR) (V : list InvariantViolation) :
  totalNewViolations (summary (diffConfigs A A V V)) = 0
  /\ totalResolvedViolations (summary (diffConfigs A A V V)) = 0
  /\ Forall (fun c => riskImpact c = neutral)
            (changes (diffConfigs A A V V)).
Proof.
  split; [|split].
  - rewrite diffConfigs_spec. simpl. apply sum_list_zero.
    intros x. apply Nat.sub_diag.
  - rewrite diffConfigs_spec. simpl. apply sum_list_zero.
    intros x. apply Nat.sub_diag.
  - apply Forall_forall. intros c Hc.
    apply changes_elem in Hc as (nm & _ & _ & ->).
    simpl. unfold impactOf. by rewrite Nat.ltb_irrefl.
Qed.

(** C7: a change is emitted for a name if and only if the name is that of a
    service of the old or of the new configuration and the name has a
    non-zero violation count on at least one side. A name with no
    violation on either side produces no change, whatever else differs
    between its two service entries (as for the cache that moved to another
    host, port and protocol). *)
Theorem change_emitted_iff :
  (forall (oldIR newIR : ConfigIR)
          (oldViolations newViolations : list InvariantViolation)
          (nm : string),
      (exists c,
          c ∈ changes (diffConfigs oldIR newIR oldViolations newViolations)
          /\ serviceName c = nm)
      <->
      (nm ∈ map name (services oldIR) \/ nm ∈ map name (services newIR))
      /\ (countFor nm oldViolations <> 0 \/ countFor nm newViolations <> 0))
  /\ cache1_new <> cache1_moved
  /\ changes
       (diffConfigs (config [cache1_new]) (config [cache1_moved])
          (checkInvariants (config [cache1_new]))
          (checkInvariants (config [cache1_moved])))
     = [].
Proof.
  split; [|split; [discriminate | by vm_compute]].
  intros oldIR newIR oldViolations newViolations nm.
  rewrite <- elem_of_app. fold (namesOf oldIR newIR). split.
  - intros (c & Hc & <-).
    apply changes_elem in Hc as (nm & Hin & Hcount & ->). simpl. tauto.
  - intros [Hin Hcount]. eexists. split.
    + apply changes_elem. exists nm. repeat split; done.
    + reflexivity.
Qed.

Lemma attributed_nil nm vs : countFor nm vs = 0 -> attributed nm vs = [].
Proof. unfold countFor. by destruct (attributed nm vs). Qed.

(** C8: when a visited name has N > 0 old violations and no new one, its
    change is the single-message change "N violation(s) resolved." with
    impact risk_decrease, it is the only change for that name, the loop
    turn for the name adds exactly N to [totalResolvedViolations] (and
    nothing to [totalNewViolations]), and so N is the name's share of the
    final total. For the cache of Scenario 3 (two violations before, none
    after) the total is 2 and the only change is a risk_decrease. *)
Theorem resolved_change :
  (forall (oldIR newIR : ConfigIR)
          (oldViolations newViolations : list InvariantViolation)
          (nm : string) (N : nat),
      nm ∈ namesOf oldIR newIR ->
      countFor nm oldViolations = N -> 0 < N ->
      countFor nm newViolations = 0 ->
      let r := diffConfigs oldIR newIR oldViolations newViolations in
      let change :=
        {| serviceName := nm;
           messages := [pretty N +:+ " violation(s) resolved."];
           riskImpact := risk_decrease |} in
      change ∈ changes r
      /\ (forall c, c ∈ changes r -> serviceName c = nm -> c = change)
      /\ (forall st,
            diffStep (indexByService oldViolations)
                     (indexByService newViolations) st nm
            = {| st_totalNewViolations := st_totalNewViolations st;
                 st_totalResolvedViolations :=
                   st_totalResolvedViolations st + N;
                 st_changes := st_changes st ++ [change] |})
      /\ totalResolvedViolations (summary r)
         = N + sum_list
                 (map (fun other => countFor other oldViolations
                                    - countFor other newViolations)
                      (filter (fun other => other <> nm)
                              (Set_new (namesOf oldIR newIR)))))
  /\ (let oldIR := config [cache1_old] in
      let newIR := config [cache1_new] in
      let r := diffConfigs oldIR newIR
                 (checkInvariants oldIR) (checkInvariants newIR) in
      length (checkInvariants oldIR) = 2
      /\ checkInvariants newIR = []
      /\ totalResolvedViolations (summary r) = 2
      /\ changes r
         = [{| serviceName := "cache1";
               messages := ["2 violation(s) resolved."];
               riskImpact := risk_decrease |}]).
Proof.
  split; [|by vm_compute].
  intros oldIR newIR oldViolations newViolations nm N Hin HN Hpos Hzero r
         change.
  assert (Hchange :
            changeFor nm (attributed nm oldViolations)
                         (attributed nm newViolations) = change).
  { unfold changeFor, change. rewrite (attributed_nil _ _ Hzero).
    fold (countFor nm oldViolations). rewrite HN. simpl.
    unfold countsMessage, impactOf.
    destruct (Nat.eqb_spec N 0); [lia|].
    destruct (Nat.ltb_spec N 0); [lia|].
    destruct (Nat.ltb_spec 0 N); [|lia]. done. }
  split; [|split; [|split]].
  - apply changes_elem. exists nm. rewrite Hchange. repeat split; [done|].
    left. lia.
  - intros c Hc Hname.
    apply changes_elem in Hc as (nm' & _ & _ & ->). simpl in Hname.
    subst nm'. exact Hchange.
  - intros st. rewrite diffStep_spec. unfold changesFor.
    rewrite Hchange, HN, Hzero.
    destruct (Nat.eqb_spec N 0); [lia|]. simpl.
    f_equal; lia.
  - unfold r. rewrite diffConfigs_spec. simpl.
    rewrite (sum_list_split _ nm).
    + by rewrite HN, Hzero, Nat.sub_0_r.
    + apply Set_new_NoDup.
    + by apply Set_new_elem.
Qed.

(** Scenario 3 as an instance of the general statement. *)
Lemma resolved_change_witness :
  let oldIR := config [cache1_old] in
  let newIR := config [cache1_new] in
  let r := diffConfigs oldIR newIR
             (checkInvariants oldIR) (checkInvariants newIR) in
  {| serviceName := "cache1";
     messages := [pretty 2 +:+ " violation(s) resolved."];
     riskImpact := risk_decrease |} ∈ changes r.
Proof.
  intros oldIR newIR r.
  apply (proj1 resolved_change oldIR newIR
           (checkInvariants oldIR) (checkInvariants newIR) "cache1" 2).
  - unfold namesOf. simpl. apply elem_of_cons. by left.
  - by vm_compute.
  - lia.
  - by vm_compute.
Defined.

(** C10: the service names of the returned changes are pairwise distinct,
    also when a configuration lists several services under one name; the
    one change of a name is computed from all the violations attributed to
    that name in the old and in the new violation list. With two services
    named "worker" that violate one and two rules, and one compliant
    "worker" after, there is one change, for three resolved violations. *)
Theorem change_names_distinct :
  (forall (oldIR newIR : ConfigIR)
          (oldViolations newViolations : list InvariantViolation),
      let r := diffConfigs oldIR newIR oldViolations newViolations in
      NoDup (map serviceName (changes r))
      /\ Forall
           (fun c =>
              let nm := serviceName c in
              let oldVs := filter (fun v => invariants.serviceName v = nm)
                                  oldViolations in
              let newVs := filter (fun v => invariants.serviceName v = nm)
                                  newViolations in
              messages c
              = countsMessage (length oldVs) (length newVs)
                  :: currentMessages newVs
              /\ riskImpact c = impactOf (length oldVs) (length newVs))
           (changes r))
  /\ (let oldIR := config [worker_a; worker_b] in
      let newIR := config [worker_ok] in
      map invariants.serviceName (checkInvariants oldIR)
      = ["worker"; "worker"; "worker"]
      /\ changes (diffConfigs oldIR newIR
                    (checkInvariants oldIR) (checkInvariants newIR))
         = [{| serviceName := "worker";
               messages := ["3 violation(s) resolved."];
               riskImpact := risk_decrease |}]).
Proof.
  split; [|by vm_compute].
  intros oldIR newIR oldViolations newViolations r. split.
  - unfold r. rewrite diffConfigs_spec. simpl. rewrite changes_names.
    apply NoDup_filter, Set_new_NoDup.
  - apply Forall_forall. intros c Hc.
    apply changes_elem in Hc as (nm & _ & _ & ->). by simpl.
Qed.

(** X4: when a visited name has no old violation and N > 0 new ones, its
    change has the message "N new violation(s) introduced." followed by the
    list of the current violations, its impact is risk_increase, and the
    loop turn adds exactly N to [totalNewViolations]. *)
Theorem introduced_change
    (oldIR newIR : ConfigIR)
    (oldViolations newViolations : list InvariantViolation)
    (nm : string) (N : nat) :
  nm ∈ namesOf oldIR newIR ->
  countFor nm oldViolations = 0 ->
  countFor nm newViolations = N -> 0 < N ->
  let r := diffConfigs oldIR newIR oldViolations newViolations in
  let change :=
    {| serviceName := nm;
       messages :=
         [pretty N +:+ " new violation(s) introduced.";
          "Current violations: " +:+
            join ", "
              (map (fun v =>
                      id v +:+ " (" +:+ Severity_text (severity v) +:+ ")")
                   (filter (fun v => invariants.serviceName v = nm)
                           newViolations))];
       riskImpact := risk_increase |} in
  change ∈ changes r
  /\ (forall c, c ∈ changes r -> serviceName c = nm -> c = change)
  /\ forall st,
       diffStep (indexByService oldViolations)
                (indexByService newViolations) st nm
       = {| st_totalNewViolations := st_totalNewViolations st + N;
            st_totalResolvedViolations := st_totalResolvedViolations st;
            st_changes := st_changes st ++ [change] |}.
Proof.
  intros Hin Hzero HN Hpos r change.
  assert (Hchange :
            changeFor nm (attributed nm oldViolations)
                         (attributed nm newViolations) = change).
  { unfold changeFor, change. rewrite (attributed_nil _ _ Hzero).
    fold (countFor nm newViolations). rewrite HN. simpl.
    unfold countsMessage, impactOf, currentMessages.
    fold (attributed nm newViolations).
    destruct (attributed nm newViolations) as [|v vs] eqn:Hvs.
    { unfold countFor in HN. rewrite Hvs in HN. simpl in HN. lia. }
    destruct (Nat.ltb_spec 0 N); [|lia]. done. }
  split; [|split].
  - apply changes_elem. exists nm. rewrite Hchange. repeat split; [done|].
    right. lia.
  - intros c Hc Hname.
    apply changes_elem in Hc as (nm' & _ & _ & ->). simpl in Hname.
    subst nm'. exact Hchange.
  - intros st. rewrite diffStep_spec. unfold changesFor.
    rewrite Hchange, HN, Hzero.
    destruct (Nat.eqb_spec N 0); [lia|]. simpl.
    f_equal; lia.
Qed.

(** The public API of Scenario 2, newly added to an empty configuration. *)
Lemma introduced_change_witness :
  {| serviceName := "api-gw";
     messages :=
       ["2 new violation(s) introduced.";
        "Current violations: R2_PUBLIC_REQUIRES_TLS (high), R4_RESOURCE_LIMITS (medium)"];
     riskImpact := risk_increase |}
  ∈ changes (diffConfigs (config []) (config [api_gw])
               [] (checkInvariants (config [api_gw]))).
Proof.
  refine (proj1 (introduced_change (config []) (config [api_gw])
                   [] (checkInvariants (config [api_gw])) "api-gw" 2
                   _ _ _ _)).
  - unfold namesOf. simpl. apply elem_of_cons. by left.
  - reflexivity.
  - by vm_compute.
  - lia.
Defined.


End diff_props.

(* ===================================================================== *)
(** ** Properties of the parser *)
(* ===================================================================== *)

Module parser_props.
Import ir zod parser parser_notions parser_samples.

(** SHA-256 test vectors: the empty text, "abc", and a text of 56 bytes,
    which takes two blocks. *)
Lemma digest_hex_empty :
  sha256.digest_hex ""
  = "e3b0c44298fc1c149afbf4c8996fb92427ae41e4649b934ca495991b7852b855".
Proof. vm_compute. reflexivity. Qed.

Lemma digest_hex_abc :
  sha256.digest_hex "abc"
  = "ba7816bf8f01cfea414140de5dae2223b00361a396177a9cb410ff61f20015ad".
Proof. vm_compute. reflexivity. Qed.

Lemma digest_hex_two_blocks :
  sha256.digest_hex
    "abcdbcdecdefdefgefghfghighijhijkijkljklmklmnlmnomnopnopq"
  = "248d6a61d20638b8e5c026930c3e6039a33ce45964ff2167f6ecedd419db06c1".
Proof. vm_compute. reflexivity. Qed.

Lemma round_constants_ends :
  hd 0%Z sha256.K = 0x428a2f98%Z /\ last sha256.K = Some 0xc67178f2%Z
  /\ length sha256.K = 64.
Proof. vm_compute. done. Qed.

Lemma scenario1_parses :
  sample_parse scenario1_yaml yaml
  = {| ir := Some {| services := [samples.user_db];
                     metadata := Some {| sourceFormat := yaml;
                                         rawHash := Some "00275d3a2643" |} |};
       errors := [] |}.
Proof. vm_compute. reflexivity. Qed.

Lemma scenario5_fails :
  sample_parse scenario5_yaml yaml
  = {| ir := None;
       errors := ["Schema validation failed: services.0.type: Required"] |}.
Proof. vm_compute. reflexivity. Qed.

(** *** Strings *)

Lemma append_assoc (a b c : string) : (a +:+ b) +:+ c = a +:+ b +:+ c.
Proof.
  induction a as [|x a IH]; [reflexivity|].
  change (String x ((a +:+ b) +:+ c) = String x (a +:+ b +:+ c)).
  by rewrite IH.
Qed.

Lemma append_nil_r (a : string) : a +:+ "" = a.
Proof.
  induction a as [|x a IH]; [reflexivity|].
  change (String x (a +:+ "") = String x a). by rewrite IH.
Qed.

Lemma contains_refl s : contains s s.
Proof.
  exists "", "". change ("" +:+ s +:+ "") with (s +:+ "").
  by rewrite append_nil_r.
Qed.

Lemma contains_app_l s t sub : contains s sub -> contains (s +:+ t) sub.
Proof.
  intros (pre & post & ->). exists pre, (post +:+ t).
  by rewrite !append_assoc.
Qed.

Lemma contains_app_r s t sub : contains t sub -> contains (s +:+ t) sub.
Proof.
  intros (pre & post & ->). exists (s +:+ pre), post.
  by rewrite !append_assoc.
Qed.

Lemma contains_trans s t u : contains s t -> contains t u -> contains s u.
Proof.
  intros (pre & post & ->) Hu.
  apply contains_app_r, contains_app_l, Hu.
Qed.

(** Every element of a joined list occurs in the result. *)
Lemma join_contains sep l x : x ∈ l -> contains (join sep l) x.
Proof.
  unfold join. induction l as [|y l IH]; intros Hin.
  - by apply elem_of_nil in Hin.
  - apply elem_of_cons in Hin as [-> | Hin]; simpl.
    + destruct l; [apply contains_refl|].
      apply contains_app_l, contains_refl.
    + destruct l as [|z l]; [by apply elem_of_nil in Hin|].
      apply contains_app_r, contains_app_r, IH, Hin.
Qed.

(** *** The hash *)

Lemma string_length_of_list l :
  String.length (String.string_of_list_ascii l) = length l.
Proof. induction l as [|c l IH]; simpl; [done|]. by rewrite IH. Qed.

Lemma substring_take n s :
  String.list_ascii_of_string (String.substring 0 n s)
  = take n (String.list_ascii_of_string s).
Proof.
  revert s. induction n as [|n IH]; intros [|c s]; simpl; try done.
  by rewrite IH.
Qed.

Lemma string_length_list s :
  String.length s = length (String.list_ascii_of_string s).
Proof. induction s as [|c s IH]; simpl; [done|]. by rewrite IH. Qed.

Lemma hex_digit_is_hex x : is_hex (sha256.hex_digit x).
Proof.
  unfold is_hex, sha256.hex_digit.
  assert (Hb : (0 <= Z.land x 15 < 16)%Z).
  { change 15%Z with (Z.ones 4). rewrite Z.land_ones by lia.
    apply Z.mod_pos_bound. lia. }
  assert (Hn : (Z.to_nat (Z.land x 15) < 16)%nat) by lia.
  revert Hn. generalize (Z.to_nat (Z.land x 15)) as k. intros k Hk.
  do 16 (destruct k as [|k]; [simpl; rewrite !elem_of_cons; tauto|]).
  lia.
Qed.

Lemma hex_word_is_hex x : Forall is_hex (sha256.hex_word x).
Proof.
  unfold sha256.hex_word. apply Forall_forall. intros c Hc.
  apply list_elem_of_In, in_map_iff in Hc as (i & <- & _).
  apply hex_digit_is_hex.
Qed.

(** The digest is 64 lower-case hexadecimal characters. *)
Lemma digest_hex_shape text :
  String.length (sha256.digest_hex text) = 64
  /\ Forall is_hex (String.list_ascii_of_string (sha256.digest_hex text)).
Proof.
  unfold sha256.digest_hex.
  rewrite string_length_of_list, String.list_ascii_of_string_of_list_ascii.
  generalize (sha256.hash (sha256.bytes_of_string text)) as s. intros s.
  split; [reflexivity|].
  apply Forall_forall. intros c Hc.
  apply list_elem_of_In, in_concat in Hc as (w & Hw & Hc).
  apply in_map_iff in Hw as (x & <- & _).
  pose proof (hex_word_is_hex x) as Hall.
  rewrite Forall_forall in Hall. by apply Hall, list_elem_of_In.
Qed.

Lemma rawHash_shape text :
  String.length (slice 0 12 (sha256.digest_hex text)) = 12
  /\ Forall is_hex
       (String.list_ascii_of_string (slice 0 12 (sha256.digest_hex text))).
Proof.
  destruct (digest_hex_shape text) as [Hlen Hhex].
  unfold slice. simpl (12 - 0). rewrite string_length_list, substring_take.
  split.
  - rewrite length_take, <- string_length_list, Hlen. reflexivity.
  - by apply Forall_take.
Qed.

(** *** Schema results *)

Lemma ap_issues {A B} (f : SafeParseReturn (A -> B)) (x : SafeParseReturn A) :
  issuesOf (f <*> x) = issuesOf f ++ issuesOf x.
Proof. destruct f, x; simpl; by rewrite ?app_nil_r. Qed.

Lemma issues_failure {A} (r : SafeParseReturn A) e :
  e ∈ issuesOf r -> r = failure (issuesOf r).
Proof. destruct r; simpl; [|done]. intros H. by apply elem_of_nil in H. Qed.

Lemma collect_cons_issues {A} (r : SafeParseReturn A) rs :
  issuesOf (collect (r :: rs)) = issuesOf r ++ issuesOf (collect rs).
Proof.
  change (collect (r :: rs)) with (success cons <*> r <*> collect rs).
  by rewrite !ap_issues.
Qed.

Lemma collect_issues {A} (rs : list (SafeParseReturn A)) r e :
  r ∈ rs -> e ∈ issuesOf r -> e ∈ issuesOf (collect rs).
Proof.
  induction rs as [|r' rs IH]; intros Hr He.
  - by apply elem_of_nil in Hr.
  - rewrite collect_cons_issues, elem_of_app.
    apply elem_of_cons in Hr as [<- | Hr]; [by left | right; auto].
Qed.

(** A service object without [type] makes the schema report an issue at
    the path of that field. *)
Lemma missing_type_issue errorMap fields items i sfields :
  prop fields "services" = VArr items ->
  items !! i = Some (VObj sfields) ->
  prop sfields "type" = VUndefined ->
  issue errorMap [Key "services"; Index i; Key "type"]
        (invalid_type "'api' | 'db' | 'queue' | 'cache'" "undefined")
  ∈ issuesOf (safeParse (configSchema errorMap) (VObj fields)).
Proof.
  intros Hservices Hitem Htype.
  unfold safeParse, configSchema, z_object.
  rewrite ap_issues, Hservices. simpl issuesOf at 1. simpl app.
  unfold z_array.
  eapply collect_issues.
  - eapply list_elem_of_lookup_2. rewrite list_lookup_imap, Hitem.
    reflexivity.
  - unfold serviceSchema, z_object. rewrite !ap_issues, Htype.
    rewrite !elem_of_app. do 5 left. right.
    apply list_elem_of_singleton. reflexivity.
Qed.

(** C4: when the text deserializes and the tree fails the schema, the
    result carries no IR and exactly one error string: "Schema validation
    failed: " followed by the texts "path: message" of all issues, joined by
    "; ", so that every issue's path and message occur in it. When the
    [i]-th service of the configuration has no [type], that single string
    names the path services.[i].type. *)
Theorem schema_failure_single_error :
  (forall (YAML_load JSON_parse : string -> LoadResult)
          (errorMap : IssueCode -> string)
          (rawConfig : string) (format : ParseFormat)
          (parsed : value) (issues : list ZodIssue),
      match format with
      | yaml => YAML_load rawConfig
      | json => JSON_parse rawConfig
      end = Loaded parsed ->
      safeParse (configSchema errorMap) parsed = failure issues ->
      let r := parseConfigToIR YAML_load JSON_parse errorMap
                 rawConfig format in
      let text :=
        "Schema validation failed: " +:+ join "; " (map issueLine issues) in
      parser.ir r = None
      /\ errors r = [text]
      /\ forall e, e ∈ issues ->
           contains text (join "." (map seg_text (path e)))
           /\ contains text (message e))
  /\
  (forall (YAML_load JSON_parse : string -> LoadResult)
          (errorMap : IssueCode -> string)
          (rawConfig : string) (format : ParseFormat)
          (fields : list (string * value)) (items : list value)
          (i : nat) (sfields : list (string * value)),
      match format with
      | yaml => YAML_load rawConfig
      | json => JSON_parse rawConfig
      end = Loaded (VObj fields) ->
      prop fields "services" = VArr items ->
      items !! i = Some (VObj sfields) ->
      prop sfields "type" = VUndefined ->
      exists text,
        parseConfigToIR YAML_load JSON_parse errorMap rawConfig format
        = {| parser.ir := None; errors := [text] |}
        /\ contains text ("services." +:+ pretty i +:+ ".type")).
Proof.
  assert (Hgeneral :
    forall YAML_load JSON_parse errorMap rawConfig format parsed issues,
      match format with
      | yaml => YAML_load rawConfig
      | json => JSON_parse rawConfig
      end = Loaded parsed ->
      safeParse (configSchema errorMap) parsed = failure issues ->
      parseConfigToIR YAML_load JSON_parse errorMap rawConfig format
      = {| parser.ir := None;
           errors := ["Schema validation failed: " +:+
                        join "; " (map issueLine issues)] |}).
  { intros YAML_load JSON_parse errorMap rawConfig format parsed issues
           Hload Hschema.
    unfold parseConfigToIR. rewrite Hload, Hschema. reflexivity. }
  assert (Hline : forall issues e,
    e ∈ issues ->
    contains ("Schema validation failed: " +:+
                join "; " (map issueLine issues)) (issueLine e)).
  { intros issues e He. apply contains_app_r, join_contains.
    apply list_elem_of_In, in_map, list_elem_of_In, He. }
  split.
  - intros YAML_load JSON_parse errorMap rawConfig format parsed issues
           Hload Hschema r text.
    unfold r. rewrite (Hgeneral _ _ _ _ _ _ _ Hload Hschema). simpl.
    split; [done|]. split; [done|].
    intros e He. split.
    + eapply contains_trans; [by apply Hline|].
      apply contains_app_l, contains_refl.
    + eapply contains_trans; [by apply Hline|].
      apply contains_app_r, contains_app_r, contains_refl.
  - intros YAML_load JSON_parse errorMap rawConfig format fields items i
           sfields Hload Hservices Hitem Htype.
    pose proof (missing_type_issue errorMap _ _ _ _ Hservices Hitem Htype)
      as Hissue.
    pose proof (issues_failure _ _ Hissue) as Hfail.
    eexists. split; [exact (Hgeneral _ _ _ _ _ _ _ Hload Hfail)|].
    eapply contains_trans; [apply Hline, Hissue|].
    apply contains_app_l. unfold issueLine, issue, join. simpl.
    exists "", "".
    change ("" +:+ ?x) with x.
    rewrite append_nil_r. reflexivity.
Qed.

(** Scenario 5 as an instance: a service without [type]. *)
Lemma schema_failure_single_error_witness :
  exists text,
    parseConfigToIR sample_YAML_load sample_JSON_parse sample_errorMap
      scenario5_yaml yaml
    = {| parser.ir := None; errors := [text] |}
    /\ contains text ("services." +:+ pretty 0 +:+ ".type").
Proof.
  apply (proj2 schema_failure_single_error
           sample_YAML_load sample_JSON_parse sample_errorMap
           scenario5_yaml yaml
           [("services",
             VArr [VObj [("name", VStr "user-db"); ("public", VBool true)]])]
           [VObj [("name", VStr "user-db"); ("public", VBool true)]]
           0 [("name", VStr "user-db"); ("public", VBool true)]);
    reflexivity.
Defined.

(** What a successful parse records as metadata. *)
Lemma parse_success_metadata YAML_load JSON_parse errorMap rawConfig format
    cfg :
  parser.ir (parseConfigToIR YAML_load JSON_parse errorMap rawConfig format)
  = Some cfg ->
  metadata cfg
  = Some {| sourceFormat := format;
            rawHash := Some (slice 0 12 (sha256.digest_hex rawConfig)) |}.
Proof.
  unfold parseConfigToIR.
  destruct (match format with
            | yaml => YAML_load rawConfig
            | json => JSON_parse rawConfig
            end) as [parsed | msg]; [|discriminate].
  destruct (safeParse (configSchema errorMap) parsed) as [data | issues];
    [|discriminate].
  simpl. by intros [= <-].
Qed.

(** C5: on a successful parse, [metadata.rawHash] is the first twelve
    characters of the hexadecimal SHA-256 digest of the raw text, twelve
    hexadecimal characters; it depends on the raw text alone, so any two
    successful parses of one text record the same [rawHash]. It is not a
    hash of the parsed tree: the two sample texts of the empty
    configuration load to one tree and get different hashes. *)
Theorem rawHash_is_digest_prefix :
  (forall (YAML_load JSON_parse : string -> LoadResult)
          (errorMap : IssueCode -> string)
          (rawConfig : string) (format : ParseFormat) (cfg : ConfigIR),
      parser.ir
        (parseConfigToIR YAML_load JSON_parse errorMap rawConfig format)
      = Some cfg ->
      let hash := slice 0 12 (sha256.digest_hex rawConfig) in
      metadata cfg = Some {| sourceFormat := format; rawHash := Some hash |}
      /\ String.length hash = 12
      /\ Forall is_hex (String.list_ascii_of_string hash)
      /\ forall (format' : ParseFormat) (cfg' : ConfigIR),
           parser.ir
             (parseConfigToIR YAML_load JSON_parse errorMap rawConfig format')
           = Some cfg' ->
           rawHashOf cfg' = rawHashOf cfg)
  /\ sample_YAML_load empty_flow_yaml = sample_YAML_load empty_block_yaml
  /\ (exists cfg cfg',
        parser.ir (sample_parse empty_flow_yaml yaml) = Some cfg
        /\ parser.ir (sample_parse empty_block_yaml yaml) = Some cfg'
        /\ services cfg = services cfg'
        /\ rawHashOf cfg = Some "572436bce7b6"
        /\ rawHashOf cfg' = Some "f636fde4064a").
Proof.
  split; [|split; [reflexivity|]].
  - intros YAML_load JSON_parse errorMap rawConfig format cfg Hparse hash.
    pose proof (parse_success_metadata _ _ _ _ _ _ Hparse) as Hmeta.
    destruct (rawHash_shape rawConfig) as [Hlen Hhex].
    repeat split; try done.
    intros format' cfg' Hparse'.
    pose proof (parse_success_metadata _ _ _ _ _ _ Hparse') as Hmeta'.
    unfold rawHashOf. by rewrite Hmeta, Hmeta'.
  - do 2 eexists. repeat split; vm_compute; reflexivity.
Qed.

(** Scenario 1 as an instance: its raw text and the hash recorded for it. *)
Lemma rawHash_is_digest_prefix_witness :
  metadata {| services := [samples.user_db];
              metadata := Some {| sourceFormat := yaml;
                                  rawHash := Some "00275d3a2643" |} |}
  = Some {| sourceFormat := yaml;
            rawHash := Some (slice 0 12 (sha256.digest_hex scenario1_yaml)) |}.
Proof.
  refine (proj1 (proj1 rawHash_is_digest_prefix
                   sample_YAML_load sample_JSON_parse sample_errorMap
                   scenario1_yaml yaml _ _)).
  vm_compute. reflexivity.
Defined.

(** X6: when the deserializer throws, the result carries no IR and one
    error string, which names the format in upper case and repeats the
    deserializer's message. *)
Theorem syntax_failure_single_error
    (YAML_load JSON_parse : string -> LoadResult)
    (errorMap : IssueCode -> string)
    (rawConfig : string) (format : ParseFormat) (msg : string) :
  match format with
  | yaml => YAML_load rawConfig
  | json => JSON_parse rawConfig
  end = Thrown msg ->
  parseConfigToIR YAML_load JSON_parse errorMap rawConfig format
  = {| parser.ir := None;
       errors :=
         ["Failed to parse "
            +:+ match format with yaml => "YAML" | json => "JSON" end
            +:+ ": " +:+ msg] |}.
Proof.
  intros Hload. unfold parseConfigToIR. rewrite Hload.
  by destruct format.
Qed.

(** A text that is neither of the sample texts counts as malformed YAML. *)
Lemma syntax_failure_single_error_witness :
  parseConfigToIR sample_YAML_load sample_JSON_parse sample_errorMap
    "services: [" yaml
  = {| parser.ir := None;
       errors :=
         ["Failed to parse YAML: unexpected end of the stream within a double quoted scalar"] |}.
Proof.
  exact (syntax_failure_single_error
           sample_YAML_load sample_JSON_parse sample_errorMap
           "services: [" yaml _ eq_refl).
Defined.

(** X7: a result either carries an IR and no error, or no IR and exactly
    one error. *)
Theorem result_is_ir_or_one_error
    (YAML_load JSON_parse : string -> LoadResult)
    (errorMap : IssueCode -> string)
    (rawConfig : string) (format : ParseFormat) :
  let r := parseConfigToIR YAML_load JSON_parse errorMap rawConfig format in
  (is_Some (parser.ir r) /\ errors r = [])
  \/ (parser.ir r = None /\ length (errors r) = 1).
Proof.
  unfold parseConfigToIR.
  destruct (match format with
            | yaml => YAML_load rawConfig
            | json => JSON_parse rawConfig
            end) as [parsed | msg]; [|by right].
  destruct (safeParse (configSchema errorMap) parsed) as [data | issues];
    [left | by right].
  split; [by eexists | done].
Qed.

(** X8: an empty service list is valid: the IR has no service, and its
    evaluation finds no violation. *)
Theorem empty_services_valid
    (YAML_load JSON_parse : string -> LoadResult)
    (errorMap : IssueCode -> string)
    (rawConfig : string) (format : ParseFormat)
    (fields : list (string * value)) :
  match format with
  | yaml => YAML_load rawConfig
  | json => JSON_parse rawConfig
  end = Loaded (VObj fields) ->
  prop fields "services" = VArr [] ->
  exists cfg,
    parseConfigToIR YAML_load JSON_parse errorMap rawConfig format
    = {| parser.ir := Some cfg; errors := [] |}
    /\ services cfg = []
    /\ invariants.checkInvariants cfg = [].
Proof.
  intros Hload Hservices. unfold parseConfigToIR. rewrite Hload.
  unfold safeParse, configSchema, z_object. rewrite Hservices.
  eexists. split; [reflexivity|]. by split.
Qed.

(** The block-style text of the empty configuration. *)
Lemma empty_services_valid_witness :
  exists cfg,
    parseConfigToIR sample_YAML_load sample_JSON_parse sample_errorMap
      empty_block_yaml yaml
    = {| parser.ir := Some cfg; errors := [] |}
    /\ services cfg = []
    /\ invariants.checkInvariants cfg = [].
Proof.
  exact (empty_services_valid
           sample_YAML_load sample_JSON_parse sample_errorMap
           empty_block_yaml yaml [("services", VArr [])] eq_refl eq_refl).
Defined.

End parser_props.

(* ===================================================================== *)
(** ** Further properties of the invariant engine *)
(* ===================================================================== *)

Module engine_props.
Import ir invariants invariants_notions samples invariants_props.

Lemma R1_report svc v :
  ruleNoPublicDatabases svc = Some v ->
  id v = "R1_NO_PUBLIC_DB" /\ severity v = high.
Proof.
  unfold ruleNoPublicDatabases.
  destruct (negb _); [done|]. simpl. destruct (negb _); [done|].
  by intros [= <-].
Qed.

Lemma R2_report svc v :
  rulePublicServicesRequireTLS svc = Some v ->
  id v = "R2_PUBLIC_REQUIRES_TLS" /\ severity v = high.
Proof.
  unfold rulePublicServicesRequireTLS.
  destruct (negb _); [done|]. destruct (some _ _); [done|]. simpl.
  destruct (negb _); [done|]. by intros [= <-].
Qed.

Lemma R3_report svc v :
  ruleNoPIIPublicExposure svc = Some v ->
  id v = "R3_NO_PII_PUBLIC" /\ severity v = high.
Proof.
  unfold ruleNoPIIPublicExposure.
  destruct (negb _); [done|]. destruct (negb _); [done|].
  by intros [= <-].
Qed.

Lemma R4_report svc v :
  ruleResourceLimitsDefined svc = Some v ->
  id v = "R4_RESOURCE_LIMITS" /\ severity v = medium.
Proof.
  unfold ruleResourceLimitsDefined. simpl.
  destruct (match resourceLimits svc with Some _ => _ | None => _ end);
    [done|]. by intros [= <-].
Qed.

(** The pairs of rule identifier and severity that can be reported. *)
Lemma violationsOf_reports svc v :
  v ∈ violationsOf svc ->
  (id v = "R1_NO_PUBLIC_DB" /\ severity v = high)
  \/ (id v = "R2_PUBLIC_REQUIRES_TLS" /\ severity v = high)
  \/ (id v = "R3_NO_PII_PUBLIC" /\ severity v = high)
  \/ (id v = "R4_RESOURCE_LIMITS" /\ severity v = medium).
Proof.
  unfold violationsOf. rewrite !elem_of_app.
  intros [H | [H | [H | H]]]; apply option_list_elem in H.
  - left. by eapply R1_report.
  - right. left. by eapply R2_report.
  - right. right. left. by eapply R3_report.
  - right. right. right. by eapply R4_report.
Qed.

Lemma option_ids_sublist (r : option InvariantViolation) (i : string) :
  (forall v, r = Some v -> id v = i) ->
  map id (option_list r) `sublist_of` [i].
Proof.
  intros Hid. destruct r as [v|]; simpl.
  - rewrite (Hid v eq_refl). reflexivity.
  - apply sublist_nil_l.
Qed.

Lemma violationsOf_ids_sublist svc :
  map id (violationsOf svc)
  `sublist_of` ["R1_NO_PUBLIC_DB"; "R2_PUBLIC_REQUIRES_TLS";
                "R3_NO_PII_PUBLIC"; "R4_RESOURCE_LIMITS"].
Proof.
  unfold violationsOf. rewrite !map_app.
  change ["R1_NO_PUBLIC_DB"; "R2_PUBLIC_REQUIRES_TLS";
          "R3_NO_PII_PUBLIC"; "R4_RESOURCE_LIMITS"]
    with (["R1_NO_PUBLIC_DB"] ++ ["R2_PUBLIC_REQUIRES_TLS"]
          ++ ["R3_NO_PII_PUBLIC"] ++ ["R4_RESOURCE_LIMITS"]).
  repeat apply sublist_app; apply option_ids_sublist; intros v Hv.
  - by apply R1_report in Hv as [? _].
  - by apply R2_report in Hv as [? _].
  - by apply R3_report in Hv as [? _].
  - by apply R4_report in Hv as [? _].
Qed.

(** X9: evaluation works service by service: the violations of a
    configuration whose services are [l1 ++ l2] are those of [l1] followed
    by those of [l2], whatever the metadata; so adding or removing a service
    never changes what is reported for the others. *)
Theorem checkInvariants_app (l1 l2 : list Service)
    (m m1 m2 : option Metadata) :
  checkInvariants {| services := l1 ++ l2; metadata := m |}
  = checkInvariants {| services := l1; metadata := m1 |}
    ++ checkInvariants {| services := l2; metadata := m2 |}.
Proof.
  rewrite !checkInvariants_flat_map. simpl. apply flat_map_app.
Qed.

(** X10: a service is reported at most once per rule and in the order R1,
    R2, R3, R4; so a configuration of n services has at most 4n violations;
    R1, R2 and R3 are always reported with severity high, R4 with medium,
    and no violation has severity low. *)
Theorem violations_rule_order_and_bound :
  (forall (svc : Service) (m : option Metadata),
      map id (checkInvariants {| services := [svc]; metadata := m |})
      `sublist_of` ["R1_NO_PUBLIC_DB"; "R2_PUBLIC_REQUIRES_TLS";
                    "R3_NO_PII_PUBLIC"; "R4_RESOURCE_LIMITS"])
  /\ (forall ir : ConfigIR,
        length (checkInvariants ir) <= 4 * length (services ir))
  /\ (forall ir : ConfigIR,
        Forall
          (fun v =>
             severity v
             = if bool_decide (id v = "R4_RESOURCE_LIMITS")
               then medium else high)
          (checkInvariants ir)).
Proof.
  split; [|split].
  - intros svc m. rewrite checkInvariants_flat_map. simpl.
    rewrite app_nil_r. apply violationsOf_ids_sublist.
  - intros ir. rewrite checkInvariants_flat_map.
    induction (services ir) as [|svc l IH]; simpl; [lia|].
    rewrite length_app.
    pose proof (sublist_length _ _ (violationsOf_ids_sublist svc)) as Hlen.
    rewrite length_map in Hlen. simpl in Hlen. lia.
  - intros ir. apply Forall_forall. intros v Hv.
    rewrite checkInvariants_flat_map in Hv.
    apply list_elem_of_In, in_flat_map in Hv as (svc & _ & Hv).
    apply list_elem_of_In, violationsOf_reports in Hv
      as [[-> ->] | [[-> ->] | [[-> ->] | [-> ->]]]]; done.
Qed.

(** X11: a configuration in which no service is public can only be
    reported by R1 (a database bound to 0.0.0.0) and R4 (missing limits):
    R2 and R3 never fire on a service that is not public. *)
Theorem private_services_rules (ir : ConfigIR) :
  (forall svc, svc ∈ services ir -> public svc = false) ->
  Forall
    (fun v => id v = "R1_NO_PUBLIC_DB" \/ id v = "R4_RESOURCE_LIMITS")
    (checkInvariants ir).
Proof.
  intros Hprivate. apply Forall_forall. intros v Hv.
  rewrite checkInvariants_flat_map in Hv.
  apply list_elem_of_In, in_flat_map in Hv as (svc & Hsvc & Hv).
  apply list_elem_of_In in Hsvc, Hv.
  specialize (Hprivate svc Hsvc).
  unfold violationsOf in Hv. rewrite !elem_of_app in Hv.
  destruct Hv as [H | [H | [H | H]]]; apply option_list_elem in H.
  - left. by apply R1_report in H as [? _].
  - unfold rulePublicServicesRequireTLS in H. by rewrite Hprivate in H.
  - unfold ruleNoPIIPublicExposure in H. rewrite Hprivate in H.
    by destruct (negb (handlesPII svc)).
  - right. by apply R4_report in H as [? _].
Qed.

(** A private queue without limits: only R4 is reported. *)
Lemma private_services_rules_witness :
  Forall
    (fun v => id v = "R1_NO_PUBLIC_DB" \/ id v = "R4_RESOURCE_LIMITS")
    (checkInvariants (config [worker_a; cache1_new])).
Proof.
  apply (private_services_rules (config [worker_a; cache1_new])).
  intros svc Hsvc. simpl in Hsvc.
  apply elem_of_cons in Hsvc as [-> | Hsvc]; [done|].
  apply list_elem_of_singleton in Hsvc. by subst.
Defined.

(** X12: R1 never fires on a service that is not a database; it fires, with
    severity high and attributed to the service, on every database that has
    a binding on host 0.0.0.0; and it does not fire on a database that is
    not public and has no such binding. *)
Theorem R1_database_bindings (service : Service) :
  (type service <> db -> ruleNoPublicDatabases service = None)
  /\ (type service = db ->
      (exists n, n ∈ network service /\ host n = "0.0.0.0") ->
      exists v, ruleNoPublicDatabases service = Some v
                /\ id v = "R1_NO_PUBLIC_DB" /\ severity v = high
                /\ serviceName v = name service)
  /\ (type service = db -> public service = false ->
      (forall n, n ∈ network service -> host n <> "0.0.0.0") ->
      ruleNoPublicDatabases service = None).
Proof.
  pose proof (ruleNoPublicDatabases_fires service) as Hfires.
  split; [|split].
  - intros Hty. destruct (ruleNoPublicDatabases service) eqn:E; [|done].
    destruct (proj1 Hfires) as [Hdb _]; [by eauto | done].
  - intros Hty (n & Hn & Hhost).
    destruct (proj2 Hfires) as [v Hv]; [by eauto 6|].
    exists v. split; [done|].
    destruct (R1_report _ _ Hv) as [Hid Hsev].
    repeat split; try done.
    eapply rule_attribution; [|exact Hv].
    unfold RULES. apply elem_of_cons. by left.
  - intros Hty Hpriv Hno.
    destruct (ruleNoPublicDatabases service) eqn:E; [|done].
    destruct (proj1 Hfires) as (_ & n & Hn & [Hhost | Hpub]);
      [by eauto | by destruct (Hno n Hn) | congruence].
Qed.

(** A private database bound to 0.0.0.0 is reported. *)
Lemma R1_database_bindings_witness :
  exists v, ruleNoPublicDatabases more_samples.open_db = Some v
            /\ id v = "R1_NO_PUBLIC_DB" /\ severity v = high
            /\ serviceName v = "orders-db".
Proof.
  apply (proj1 (proj2 (R1_database_bindings more_samples.open_db))).
  - reflexivity.
  - eexists. split; [apply elem_of_cons; by left | reflexivity].
Defined.

End engine_props.

(* ===================================================================== *)
(** ** Further properties of the drift differencer *)
(* ===================================================================== *)

Module drift_props.
Import ir invariants diff invariants_notions diff_notions samples.
Import invariants_props diff_props.
Local Open Scope nat_scope.

(** *** The index *)

Lemma index_fold_nonempty vs :
  forall m : gmap string (list InvariantViolation),
    (forall k l, m !! k = Some l -> l <> []) ->
    forall k l,
      fold_left
        (fun map v =>
           let arr := getOrEmpty map (invariants.serviceName v) in
           <[invariants.serviceName v := arr ++ [v]]> map)
        vs m !! k = Some l ->
      l <> [].
Proof.
  induction vs as [|v vs IH]; intros m Hm k l; simpl; [by apply Hm|].
  apply IH. intros k' l'.
  destruct (decide (invariants.serviceName v = k')) as [<- | Hne].
  - rewrite lookup_insert_eq. intros [= <-].
    by destruct (getOrEmpty m (invariants.serviceName v)).
  - rewrite lookup_insert_ne by done. apply Hm.
Qed.

(** X13: the index built by [indexByService] holds, under each service
    name, exactly the violations attributed to that name, in their order
    in the list; a name without violations has no entry, and no entry is
    an empty list. *)
Theorem indexByService_lookup
    (violations : list InvariantViolation) (nm : string) :
  (indexByService violations !! nm = None
   <-> forall v, v ∈ violations -> invariants.serviceName v <> nm)
  /\ (forall l, indexByService violations !! nm = Some l ->
        l <> []
        /\ l = filter (fun v => invariants.serviceName v = nm) violations)
  /\ (forall v, v ∈ getOrEmpty (indexByService violations) nm
        <-> v ∈ violations /\ invariants.serviceName v = nm).
Proof.
  pose proof (indexByService_get violations nm) as Hget.
  assert (Hsome : forall l, indexByService violations !! nm = Some l ->
                    l <> [] /\ l = attributed nm violations).
  { intros l Hl. split.
    - eapply (index_fold_nonempty violations ∅); [|exact Hl].
      intros k l'. by rewrite lookup_empty.
    - unfold getOrEmpty in Hget. by rewrite Hl in Hget. }
  split; [|split].
  - split.
    + intros Hnone v Hv Hname.
      unfold getOrEmpty in Hget. rewrite Hnone in Hget. simpl in Hget.
      assert (Hin : v ∈ attributed nm violations)
        by (by apply list_elem_of_filter).
      rewrite <- Hget in Hin. by apply elem_of_nil in Hin.
    + intros Hno.
      destruct (indexByService violations !! nm) as [l|] eqn:El; [|done].
      destruct (Hsome l eq_refl) as [Hne ->]. exfalso.
      destruct (attributed nm violations) as [|v l'] eqn:Ea; [done|].
      assert (Hin : v ∈ attributed nm violations)
        by (rewrite Ea; apply elem_of_cons; by left).
      apply list_elem_of_filter in Hin as [Hname Hin].
      by apply (Hno v).
  - exact Hsome.
  - intros v. rewrite Hget. unfold attributed.
    rewrite list_elem_of_filter. tauto.
Qed.

(** *** Sums over the visited names *)

Lemma sum_list_map_add (f g : string -> nat) l :
  sum_list (map (fun x => f x + g x) l)
  = sum_list (map f l) + sum_list (map g l).
Proof. induction l as [|x l IH]; simpl; [done|]. rewrite IH. lia. Qed.

Lemma sum_list_map_ext (f g : string -> nat) l :
  (forall x, x ∈ l -> f x = g x) ->
  sum_list (map f l) = sum_list (map g l).
Proof.
  intros H. f_equal. apply map_ext_in. intros x Hx.
  by apply H, list_elem_of_In.
Qed.

Lemma sum_list_pos (f : string -> nat) l :
  0 < sum_list (map f l) <-> exists x, x ∈ l /\ 0 < f x.
Proof.
  induction l as [|y l IH]; simpl.
  - split; [lia | intros (x & Hx & _); by apply elem_of_nil in Hx].
  - split.
    + intros Hpos. destruct (decide (0 < f y)) as [Hy | Hy].
      * exists y. split; [apply elem_of_cons; by left | done].
      * destruct (proj1 IH) as (x & Hx & Hfx); [lia|].
        exists x. split; [apply elem_of_cons; by right | done].
    + intros (x & Hx & Hfx). apply elem_of_cons in Hx as [-> | Hx]; [lia|].
      assert (0 < sum_list (map f l)) by (apply IH; eauto). lia.
Qed.

Lemma sum_list_zero_in (f : string -> nat) l :
  (forall x, x ∈ l -> f x = 0) -> sum_list (map f l) = 0.
Proof.
  intros Hf. rewrite (sum_list_map_ext f (fun _ => 0) l Hf).
  apply sum_list_zero. done.
Qed.

(** Over names without repeats that cover the attributions, the counts add
    up to the length of the violation list. *)
Lemma sum_countFor names vs :
  NoDup names ->
  (forall v, v ∈ vs -> invariants.serviceName v ∈ names) ->
  sum_list (map (fun nm => countFor nm vs) names) = length vs.
Proof.
  intros Hnd. induction vs as [|v vs IH]; intros Hcover.
  - apply sum_list_zero. intros x. reflexivity.
  - assert (Hstep : forall nm,
              countFor nm (v :: vs)
              = (if decide (invariants.serviceName v = nm) then 1 else 0)
                + countFor nm vs).
    { intros nm. unfold countFor, attributed. rewrite filter_cons.
      by destruct (decide (invariants.serviceName v = nm)). }
    rewrite (sum_list_map_ext _ _ _ (fun nm _ => Hstep nm)).
    rewrite sum_list_map_add, IH.
    2:{ intros w Hw. apply Hcover, elem_of_cons. by right. }
    rewrite (sum_list_split _ (invariants.serviceName v)); [|done|].
    2:{ apply Hcover, elem_of_cons. by left. }
    rewrite decide_True by done.
    rewrite sum_list_zero_in; [simpl; lia|].
    intros nm Hnm. apply list_elem_of_filter in Hnm as [Hne _].
    rewrite decide_False; [done | congruence].
Qed.

Lemma checkInvariants_names (ir : ConfigIR) v :
  v ∈ checkInvariants ir ->
  invariants.serviceName v ∈ map name (services ir).
Proof.
  rewrite checkInvariants_flat_map. intros Hv.
  apply list_elem_of_In, in_flat_map in Hv as (svc & Hsvc & Hv).
  apply list_elem_of_In, violationsOf_attribution in Hv. rewrite Hv.
  apply list_elem_of_In, in_map, Hsvc.
Qed.

(** The two totals and the two list lengths balance when the visited names
    cover every attribution. *)
Lemma totals_balance oldIR newIR oldViolations newViolations :
  (forall v, v ∈ oldViolations ->
     invariants.serviceName v ∈ namesOf oldIR newIR) ->
  (forall v, v ∈ newViolations ->
     invariants.serviceName v ∈ namesOf oldIR newIR) ->
  let r := diffConfigs oldIR newIR oldViolations newViolations in
  totalNewViolations (summary r) + length oldViolations
  = totalResolvedViolations (summary r) + length newViolations.
Proof.
  intros Hold Hnew r. unfold r. rewrite diffConfigs_spec. simpl.
  set (names := Set_new (namesOf oldIR newIR)).
  assert (Hnd : NoDup names) by apply Set_new_NoDup.
  rewrite <- (sum_countFor names oldViolations), <- (sum_countFor names newViolations);
    try done;
    try (intros v Hv; apply Set_new_elem; auto).
  rewrite <- !sum_list_map_add. apply sum_list_map_ext. intros nm _. lia.
Qed.

(** X14: for the diff of two evaluated configurations, the totals balance
    the violation counts: [totalNewViolations] plus the number of old
    violations equals [totalResolvedViolations] plus the number of new
    violations. In particular neither total exceeds the list it counts
    from. *)
Theorem diff_totals_balance (oldIR newIR : ConfigIR) :
  let oldViolations := checkInvariants oldIR in
  let newViolations := checkInvariants newIR in
  let r := diffConfigs oldIR newIR oldViolations newViolations in
  totalNewViolations (summary r) + length oldViolations
  = totalResolvedViolations (summary r) + length newViolations
  /\ totalNewViolations (summary r) <= length newViolations
  /\ totalResolvedViolations (summary r) <= length oldViolations.
Proof.
  intros oldViolations newViolations r.
  assert (Hold : forall v, v ∈ oldViolations ->
                   invariants.serviceName v ∈ namesOf oldIR newIR).
  { intros v Hv. apply elem_of_app. left. by apply checkInvariants_names. }
  assert (Hnew : forall v, v ∈ newViolations ->
                   invariants.serviceName v ∈ namesOf oldIR newIR).
  { intros v Hv. apply elem_of_app. right. by apply checkInvariants_names. }
  split; [by apply totals_balance|].
  unfold r. rewrite diffConfigs_spec. simpl.
  set (names := Set_new (namesOf oldIR newIR)).
  assert (Hnd : NoDup names) by apply Set_new_NoDup.
  rewrite <- (sum_countFor names oldViolations),
          <- (sum_countFor names newViolations);
    try done; try (intros v Hv; apply Set_new_elem; auto).
  assert (Hle : forall (f g : string -> nat) l,
            (forall x, f x <= g x) ->
            sum_list (map f l) <= sum_list (map g l)).
  { intros f g l Hfg. induction l as [|x l IH]; simpl; [lia|].
    specialize (Hfg x). lia. }
  split; apply Hle; intros nm; lia.
Qed.

Lemma Set_new_swap (a b : list string) :
  Set_new (a ++ b) ≡ₚ Set_new (b ++ a).
Proof.
  apply NoDup_Permutation; try apply Set_new_NoDup.
  intros x. rewrite !Set_new_elem, !elem_of_app. tauto.
Qed.

(** X15: swapping the old and the new side of a diff swaps the two totals,
    and a name whose change is a risk_increase one way has a risk_decrease
    change the other way. *)
Theorem diff_swap_sides (A B : ConfigIR)
    (VA VB : list InvariantViolation) :
  totalNewViolations (summary (diffConfigs B A VB VA))
  = totalResolvedViolations (summary (diffConfigs A B VA VB))
  /\ totalResolvedViolations (summary (diffConfigs B A VB VA))
     = totalNewViolations (summary (diffConfigs A B VA VB))
  /\ forall nm,
       (exists c, c ∈ changes (diffConfigs A B VA VB)
                  /\ serviceName c = nm /\ riskImpact c = risk_increase)
       <-> (exists c, c ∈ changes (diffConfigs B A VB VA)
                      /\ serviceName c = nm /\ riskImpact c = risk_decrease).
Proof.
  split; [|split].
  - rewrite !diffConfigs_spec. simpl. unfold namesOf.
    by rewrite (Permutation_map _ (Set_new_swap _ _)).
  - rewrite !diffConfigs_spec. simpl. unfold namesOf.
    by rewrite (Permutation_map _ (Set_new_swap _ _)).
  - intros nm.
    assert (Hflip : forall o n,
              impactOf o n = risk_increase <-> impactOf n o = risk_decrease).
    { intros o n. unfold impactOf.
      destruct (Nat.ltb_spec o n), (Nat.ltb_spec n o); try lia; split;
        done. }
    split.
    + intros (c & Hc & <- & Himpact).
      apply changes_elem in Hc as (nm & Hin & Hcount & ->).
      simpl in *.
      exists (changeFor nm (attributed nm VB) (attributed nm VA)).
      split; [|split; [reflexivity|]].
      * apply changes_elem. exists nm. split; [|split; [|reflexivity]].
        -- unfold namesOf in *. rewrite elem_of_app in *. tauto.
        -- tauto.
      * simpl. by apply Hflip.
    + intros (c & Hc & <- & Himpact).
      apply changes_elem in Hc as (nm & Hin & Hcount & ->).
      simpl in *.
      exists (changeFor nm (attributed nm VA) (attributed nm VB)).
      split; [|split; [reflexivity|]].
      * apply changes_elem. exists nm. split; [|split; [|reflexivity]].
        -- unfold namesOf in *. rewrite elem_of_app in *. tauto.
        -- tauto.
      * simpl. by apply Hflip.
Qed.

(** X16: the totals agree with the impacts of the changes:
    [totalNewViolations] is positive exactly when some change is a
    risk_increase, and [totalResolvedViolations] is positive exactly when
    some change is a risk_decrease. *)
Theorem totals_agree_with_impacts (oldIR newIR : ConfigIR)
    (oldViolations newViolations : list InvariantViolation) :
  let r := diffConfigs oldIR newIR oldViolations newViolations in
  (0 < totalNewViolations (summary r)
   <-> exists c, c ∈ changes r /\ riskImpact c = risk_increase)
  /\ (0 < totalResolvedViolations (summary r)
      <-> exists c, c ∈ changes r /\ riskImpact c = risk_decrease).
Proof.
  intros r.
  assert (Hinc : forall o n, impactOf o n = risk_increase <-> o < n).
  { intros o n. unfold impactOf.
    destruct (Nat.ltb_spec o n), (Nat.ltb_spec n o); try lia; split;
      try done; lia. }
  assert (Hdec : forall o n, impactOf o n = risk_decrease <-> n < o).
  { intros o n. unfold impactOf.
    destruct (Nat.ltb_spec o n), (Nat.ltb_spec n o); try lia; split;
      try done; lia. }
  split.
  - unfold r at 1. rewrite diffConfigs_spec. simpl. rewrite sum_list_pos.
    split.
    + intros (nm & Hnm & Hpos). rewrite Set_new_elem in Hnm.
      eexists. split.
      * apply changes_elem. exists nm. split; [done|].
        split; [lia | reflexivity].
      * simpl. apply Hinc. fold (countFor nm oldViolations).
        fold (countFor nm newViolations). lia.
    + intros (c & Hc & Himpact).
      apply changes_elem in Hc as (nm & Hin & Hcount & ->).
      simpl in Himpact. apply Hinc in Himpact.
      exists nm. split; [by apply Set_new_elem|].
      unfold countFor. lia.
  - unfold r at 1. rewrite diffConfigs_spec. simpl. rewrite sum_list_pos.
    split.
    + intros (nm & Hnm & Hpos). rewrite Set_new_elem in Hnm.
      eexists. split.
      * apply changes_elem. exists nm. split; [done|].
        split; [lia | reflexivity].
      * simpl. apply Hdec. fold (countFor nm oldViolations).
        fold (countFor nm newViolations). lia.
    + intros (c & Hc & Himpact).
      apply changes_elem in Hc as (nm & Hin & Hcount & ->).
      simpl in Himpact. apply Hdec in Himpact.
      exists nm. split; [by apply Set_new_elem|].
      unfold countFor. lia.
Qed.

Lemma attributed_known (names : list string) nm vs :
  nm ∈ names ->
  attributed nm (filter (fun v => invariants.serviceName v ∈ names) vs)
  = attributed nm vs.
Proof.
  intros Hnm. unfold attributed. rewrite list_filter_filter.
  apply list_filter_iff. intros v. split; [tauto|].
  intros Hv. split; [done|]. by rewrite Hv.
Qed.

Lemma flat_map_ext_elem {A B} (f g : A -> list B) l :
  (forall x, x ∈ l -> f x = g x) -> flat_map f l = flat_map g l.
Proof.
  induction l as [|x l IH]; intros H; simpl; [done|].
  rewrite H by (apply elem_of_cons; by left).
  rewrite IH; [done|]. intros y Hy. apply H, elem_of_cons. by right.
Qed.

(** X17: the diff never reports on a service that is in neither
    configuration: violations attributed to any other name change neither
    the totals nor the changes, so the result is that of the violations
    attributed to the services of the two configurations. *)
Theorem diff_ignores_unknown_services (oldIR newIR : ConfigIR)
    (oldViolations newViolations : list InvariantViolation) :
  let known v :=
    invariants.serviceName v
    ∈ map name (services oldIR) ++ map name (services newIR) in
  diffConfigs oldIR newIR oldViolations newViolations
  = diffConfigs oldIR newIR
      (filter known oldViolations) (filter known newViolations).
Proof.
  intros known. rewrite !diffConfigs_spec.
  fold (namesOf oldIR newIR) in known.
  assert (Hcount : forall nm vs,
            nm ∈ Set_new (namesOf oldIR newIR) ->
            countFor nm (filter known vs) = countFor nm vs).
  { intros nm vs Hnm. rewrite Set_new_elem in Hnm. unfold countFor.
    by rewrite (attributed_known _ _ _ Hnm). }
  f_equal; [f_equal|].
  - apply sum_list_map_ext. intros nm Hnm. by rewrite !Hcount.
  - apply sum_list_map_ext. intros nm Hnm. by rewrite !Hcount.
  - apply flat_map_ext_elem. intros nm Hnm. unfold changesFor.
    rewrite !Hcount by done. rewrite Set_new_elem in Hnm.
    by rewrite !(attributed_known _ _ _ Hnm).
Qed.

End drift_props.

(* ===================================================================== *)
(** ** Further properties of the parser and its schema *)
(* ===================================================================== *)

Module schema_props.
Import ir zod parser parser_notions schema_notions parser_samples.
Import parser_props.

Lemma ap_success_inv {A B} (f : SafeParseReturn (A -> B))
    (x : SafeParseReturn A) (b : B) :
  f <*> x = success b ->
  exists g a, f = success g /\ x = success a /\ b = g a.
Proof. destruct f, x; simpl; intros [=]. subst. eauto. Qed.

Lemma collect_success_inv {A} (rs : list (SafeParseReturn A)) (l : list A) :
  collect rs = success l -> rs = map success l.
Proof.
  revert l. induction rs as [|r rs IH]; intros l.
  - unfold collect. simpl. by intros [= <-].
  - change (collect (r :: rs)) with (success cons <*> r <*> collect rs).
    intros H. apply ap_success_inv in H as (g & tl & Hg & Htl & ->).
    apply ap_success_inv in Hg as (c & a & [= <-] & -> & ->).
    simpl. by rewrite (IH tl Htl).
Qed.

Lemma imap_success_inv {A B} (items : list A) :
  forall (f : nat -> A -> SafeParseReturn B) (l : list B),
    imap f items = map success l ->
    length l = length items
    /\ forall i x a, items !! i = Some x -> l !! i = Some a ->
         f i x = success a.
Proof.
  induction items as [|y items IH]; intros f l; simpl.
  - destruct l; [|done]. intros _. split; [done|]. by intros i x a.
  - destruct l as [|b l]; [done|]. simpl. intros [= Hy Hrest].
    destruct (IH _ _ Hrest) as [Hlen Hall]. split; [by rewrite Hlen|].
    intros [|i] x a; simpl.
    + by intros [= <-] [= <-].
    + apply Hall.
Qed.

Section schema.
Variable errorMap : IssueCode -> string.

(** What a successful [z.array(element)] says of its input and output. *)
Lemma z_array_success_inv {A} (element : ZodType A) path v (l : list A) :
  z_array errorMap element path v = success l ->
  exists items,
    v = VArr items /\ length l = length items
    /\ forall i x a, items !! i = Some x -> l !! i = Some a ->
         element (path ++ [Index i]) x = success a.
Proof.
  unfold z_array. destruct v; try done. intros H.
  apply collect_success_inv, imap_success_inv in H as [Hlen Hall].
  eauto.
Qed.

Lemma z_array_success_Forall {A} (element : ZodType A) (P : A -> Prop)
    path v (l : list A) :
  (forall p x a, element p x = success a -> P a) ->
  z_array errorMap element path v = success l -> Forall P l.
Proof.
  intros HP H.
  apply z_array_success_inv in H as (items & -> & Hlen & Hall).
  apply Forall_forall. intros a Ha.
  apply list_elem_of_lookup_1 in Ha as [i Hi].
  destruct (items !! i) as [x|] eqn:Hx.
  - eapply HP, Hall; done.
  - apply lookup_ge_None in Hx. apply lookup_lt_Some in Hi. lia.
Qed.

Lemma z_boolean_default_inv path v d b :
  z_default d (z_boolean errorMap) path v = success b -> defaulted v d b.
Proof.
  unfold z_default, z_boolean, defaulted.
  destruct v; simpl; intros [=]; subst; auto.
Qed.

Lemma port_success_inv path v q :
  z_number errorMap [check_int; check_min 0%Q true] path v = success q ->
  port_ok q.
Proof.
  unfold z_number. destruct v as [| | |q'| | |]; try done. simpl.
  unfold port_ok.
  destruct (isInteger q') eqn:Hint; simpl; [|done].
  destruct (Qle_bool 0 q') eqn:Hle; simpl; [|done].
  intros [= <-]. split; [done|]. by apply Qle_bool_iff.
Qed.

Lemma networkBinding_success_inv path v n :
  networkBindingSchema errorMap path v = success n -> port_ok (port n).
Proof.
  unfold networkBindingSchema, z_object. destruct v; try done. intros H.
  apply ap_success_inv in H as (g3 & a3 & H & _ & ->).
  apply ap_success_inv in H as (g2 & a2 & H & Hport & ->).
  apply ap_success_inv in H as (g1 & a1 & [= <-] & _ & ->).
  simpl. by eapply port_success_inv.
Qed.

Lemma assoc_Some {A} (options : list (string * A)) s a :
  assoc options s = Some a -> (s, a) ∈ options.
Proof.
  induction options as [|[k b] options IH]; [done|].
  change (assoc ((k, b) :: options) s)
    with (if String.eqb k s then Some b else assoc options s).
  destruct (String.eqb_spec k s) as [-> | _].
  - intros [= ->]. apply elem_of_cons. by left.
  - intros H. apply elem_of_cons. right. by apply IH.
Qed.

Lemma enum_success_inv path v (t : ServiceType) :
  z_enum errorMap
    [("api", api); ("db", db); ("queue", queue); ("cache", cache)] path v
  = success t ->
  v = VStr (ServiceType_text t).
Proof.
  unfold z_enum. destruct v as [| | | |s| |]; try done.
  destruct (assoc _ s) as [t'|] eqn:Ha; [|done]. intros [= ->].
  apply assoc_Some in Ha. rewrite !elem_of_cons, elem_of_nil in Ha.
  destruct Ha as [[= -> ->] | [[= -> ->] | [[= -> ->] | [[= -> ->] | []]]]];
    done.
Qed.

(** What a successful [serviceSchema] says of the object it read. *)
Lemma serviceSchema_success_inv path v s :
  serviceSchema errorMap path v = success s ->
  exists sfields,
    v = VObj sfields
    /\ prop sfields "name" = VStr (s_name s)
    /\ prop sfields "type" = VStr (ServiceType_text (s_type s))
    /\ defaulted (prop sfields "public") false (s_public s)
    /\ defaulted (prop sfields "handlesPII") false (s_handlesPII s)
    /\ (prop sfields "network" = VUndefined -> s_network s = [])
    /\ (prop sfields "dependsOn" = VUndefined -> s_dependsOn s = [])
    /\ (prop sfields "resourceLimits" = VUndefined ->
        s_resourceLimits s = None)
    /\ Forall (fun n => port_ok (port n)) (s_network s).
Proof.
  unfold serviceSchema, z_object.
  destruct v as [| | | | | |sfields]; try done. intros H.
  apply ap_success_inv in H as (g7 & a7 & H & Hlimits & ->).
  apply ap_success_inv in H as (g6 & a6 & H & Hdeps & ->).
  apply ap_success_inv in H as (g5 & a5 & H & Hnet & ->).
  apply ap_success_inv in H as (g4 & a4 & H & Hpii & ->).
  apply ap_success_inv in H as (g3 & a3 & H & Hpub & ->).
  apply ap_success_inv in H as (g2 & a2 & H & Hty & ->).
  apply ap_success_inv in H as (g1 & a1 & [= <-] & Hname & ->).
  exists sfields. simpl.
  split; [done|]. split.
  { unfold z_string in Hname.
    destruct (prop sfields "name"); try done. by injection Hname as ->. }
  split; [by eapply enum_success_inv|].
  split; [by eapply z_boolean_default_inv|].
  split; [by eapply z_boolean_default_inv|].
  split.
  { intros Hu. rewrite Hu in Hnet. by injection Hnet as <-. }
  split.
  { intros Hu. rewrite Hu in Hdeps. by injection Hdeps as <-. }
  split.
  { intros Hu. rewrite Hu in Hlimits. unfold resourceLimitsSchema in Hlimits.
    by injection Hlimits as <-. }
  unfold z_default in Hnet.
  destruct (prop sfields "network") eqn:Hn;
    try (eapply z_array_success_Forall; [|exact Hnet];
         intros p x a; apply networkBinding_success_inv).
  injection Hnet as <-. constructor.
Qed.

Lemma configSchema_success_inv parsed data :
  safeParse (configSchema errorMap) parsed = success data ->
  exists fields,
    parsed = VObj fields
    /\ z_array errorMap (serviceSchema errorMap) [Key "services"]
         (prop fields "services")
       = success (d_services data).
Proof.
  unfold safeParse, configSchema, z_object.
  destruct parsed as [| | | | | |fields]; try done. intros H.
  apply ap_success_inv in H as (g & a & [= <-] & Ha & ->).
  exists fields. split; [done|]. exact Ha.
Qed.

End schema.

Lemma lookup_map {A B} (f : A -> B) (l : list A) i :
  map f l !! i = f <$> (l !! i).
Proof.
  revert i. induction l as [|x l IH]; intros [|i]; simpl; done.
Qed.

(** A successful parse, step by step. *)
Lemma parse_success_inv YAML_load JSON_parse errorMap rawConfig format cfg :
  parser.ir (parseConfigToIR YAML_load JSON_parse errorMap rawConfig format)
  = Some cfg ->
  exists parsed data,
    match format with
    | yaml => YAML_load rawConfig
    | json => JSON_parse rawConfig
    end = Loaded parsed
    /\ safeParse (configSchema errorMap) parsed = success data
    /\ services cfg
       = map (fun s =>
                {| name := s_name s; type := s_type s;
                   public := s_public s; handlesPII := s_handlesPII s;
                   network :=
                     map (fun n => {| host := host n; port := port n;
                                      protocol := protocol n |})
                         (s_network s);
                   dependsOn := s_dependsOn s;
                   resourceLimits := s_resourceLimits s |})
             (d_services data).
Proof.
  unfold parseConfigToIR.
  destruct (match format with
            | yaml => YAML_load rawConfig
            | json => JSON_parse rawConfig
            end) as [parsed | msg]; [|discriminate].
  destruct (safeParse (configSchema errorMap) parsed) as [data | issues] eqn:E;
    [|discriminate].
  simpl. intros [= <-]. exists parsed, data. by repeat split.
Qed.

(** X18: only well-formed bindings enter the IR: after a successful parse,
    the port of every network binding of every service is a non-negative
    integer. *)
Theorem parsed_ports_wellformed
    (YAML_load JSON_parse : string -> LoadResult)
    (errorMap : IssueCode -> string)
    (rawConfig : string) (format : ParseFormat) (cfg : ConfigIR) :
  parser.ir (parseConfigToIR YAML_load JSON_parse errorMap rawConfig format)
  = Some cfg ->
  Forall
    (fun svc =>
       Forall (fun n => isInteger (port n) = true /\ (0 <= port n)%Q)
              (network svc))
    (services cfg).
Proof.
  intros Hparse.
  apply parse_success_inv in Hparse as (parsed & data & _ & Hschema & ->).
  apply configSchema_success_inv in Hschema as (fields & _ & Harr).
  assert (Hall : Forall (fun s => Forall (fun n => port_ok (port n))
                                         (s_network s))
                        (d_services data)).
  { eapply z_array_success_Forall; [|exact Harr].
    intros p x s Hs.
    by apply serviceSchema_success_inv
      in Hs as (? & _ & _ & _ & _ & _ & _ & _ & _ & Hports). }
  apply Forall_forall. intros svc Hsvc.
  apply list_elem_of_In, in_map_iff in Hsvc as (s & <- & Hs). simpl.
  rewrite Forall_forall in Hall. specialize (Hall s).
  apply Forall_forall. intros n Hn.
  apply list_elem_of_In, in_map_iff in Hn as (n' & <- & Hn'). simpl.
  assert (Hs' : Forall (fun n => port_ok (port n)) (s_network s))
    by (apply Hall; by apply list_elem_of_In).
  rewrite Forall_forall in Hs'. apply Hs'. by apply list_elem_of_In.
Qed.

(** Scenario 2 as an instance: port 80. *)
Lemma parsed_ports_wellformed_witness :
  Forall
    (fun svc =>
       Forall (fun n => isInteger (port n) = true /\ (0 <= port n)%Q)
              (network svc))
    [samples.api_gw].
Proof.
  refine (parsed_ports_wellformed
            more_samples.sample_YAML_load2 sample_JSON_parse sample_errorMap
            more_samples.scenario2_yaml yaml
            {| services := [samples.api_gw];
               metadata := Some {| sourceFormat := yaml;
                                   rawHash := Some "bde4558435fb" |} |} _).
  vm_compute. reflexivity.
Defined.

(** X19: the IR reflects the tree, service by service and in order: a
    successful parse yields as many services as the [services] array has
    elements, and the service at each index has the [name] and [type] of
    the object at that index, its [public] and [handlesPII] (false when the
    key is absent), and an empty [network], empty [dependsOn] and no
    [resourceLimits] when those keys are absent. *)
Theorem parse_reflects_tree
    (YAML_load JSON_parse : string -> LoadResult)
    (errorMap : IssueCode -> string)
    (rawConfig : string) (format : ParseFormat)
    (parsed : value) (cfg : ConfigIR) :
  match format with
  | yaml => YAML_load rawConfig
  | json => JSON_parse rawConfig
  end = Loaded parsed ->
  parser.ir (parseConfigToIR YAML_load JSON_parse errorMap rawConfig format)
  = Some cfg ->
  exists fields items,
    parsed = VObj fields
    /\ prop fields "services" = VArr items
    /\ length (services cfg) = length items
    /\ forall i x svc,
         items !! i = Some x -> services cfg !! i = Some svc ->
         exists sfields,
           x = VObj sfields
           /\ prop sfields "name" = VStr (name svc)
           /\ prop sfields "type" = VStr (ServiceType_text (type svc))
           /\ defaulted (prop sfields "public") false (public svc)
           /\ defaulted (prop sfields "handlesPII") false (handlesPII svc)
           /\ (prop sfields "network" = VUndefined -> network svc = [])
           /\ (prop sfields "dependsOn" = VUndefined -> dependsOn svc = [])
           /\ (prop sfields "resourceLimits" = VUndefined ->
               resourceLimits svc = None).
Proof.
  intros Hload Hparse.
  apply parse_success_inv in Hparse as (parsed' & data & Hload' & Hschema & Hsvcs).
  rewrite Hload in Hload'. injection Hload' as <-.
  apply configSchema_success_inv in Hschema as (fields & -> & Harr).
  apply z_array_success_inv in Harr as (items & Hitems & Hlen & Hall).
  exists fields, items. split; [done|]. split; [done|].
  split; [by rewrite Hsvcs, length_map|].
  intros i x svc Hx Hsvc. rewrite Hsvcs, lookup_map in Hsvc.
  destruct (d_services data !! i) as [s|] eqn:Hs; [|done].
  injection Hsvc as <-. simpl.
  specialize (Hall i x s Hx Hs).
  apply serviceSchema_success_inv in Hall
    as (sfields & -> & Hname & Hty & Hpub & Hpii & Hnet & Hdeps & Hlim & _).
  exists sfields. repeat split; try done.
  intros Hu. by rewrite (Hnet Hu).
Qed.

(** Scenario 1 as an instance: its service object has no [handlesPII]
    key. *)
Lemma parse_reflects_tree_witness :
  exists fields items,
    scenario1_tree = VObj fields
    /\ prop fields "services" = VArr items
    /\ length [samples.user_db] = length items
    /\ forall i x svc,
         items !! i = Some x -> [samples.user_db] !! i = Some svc ->
         exists sfields,
           x = VObj sfields
           /\ prop sfields "name" = VStr (name svc)
           /\ prop sfields "type" = VStr (ServiceType_text (type svc))
           /\ defaulted (prop sfields "public") false (public svc)
           /\ defaulted (prop sfields "handlesPII") false (handlesPII svc)
           /\ (prop sfields "network" = VUndefined -> network svc = [])
           /\ (prop sfields "dependsOn" = VUndefined -> dependsOn svc = [])
           /\ (prop sfields "resourceLimits" = VUndefined ->
               resourceLimits svc = None).
Proof.
  refine (parse_reflects_tree
            sample_YAML_load sample_JSON_parse sample_errorMap
            scenario1_yaml yaml scenario1_tree
            {| services := [samples.user_db];
               metadata := Some {| sourceFormat := yaml;
                                   rawHash := Some "00275d3a2643" |} |}
            _ _).
  - reflexivity.
  - vm_compute. reflexivity.
Defined.

End schema_props.

(* ===================================================================== *)
(** ** Properties of the command-line program *)
(* ===================================================================== *)

Module cli_props.
Import ir invariants parser cli cli_notions.

Lemma forEach_console_error {A} (l : list A) (f : A -> string) :
  forEach l (fun x => console_error (f x))
  = (map (fun x => Err (f x)) l, Done tt).
Proof.
  induction l as [|x l IH]; [done|].
  simpl. rewrite IH. reflexivity.
Qed.

Lemma forEach_console_log {A} (l : list A) (f : A -> string) :
  forEach l (fun x => console_log (f x))
  = (map (fun x => Log (f x)) l, Done tt).
Proof.
  induction l as [|x l IH]; [done|].
  simpl. rewrite IH. reflexivity.
Qed.

Lemma stderr_map_Log (l : list string) : stderr (map Log l) = [].
Proof. induction l as [|x l IH]; simpl; done. Qed.

Lemma stdout_map_Log (l : list string) : stdout (map Log l) = l.
Proof. induction l as [|x l IH]; simpl; [done|]. by rewrite IH. Qed.

Lemma indexOf_first pre x post :
  x ∉ pre -> indexOf (pre ++ x :: post) x = Some (length pre).
Proof.
  induction pre as [|y pre IH]; intros Hnot.
  - change (indexOf ([] ++ x :: post) x)
      with (if String.eqb x x then Some 0
            else match indexOf post x with
                 | Some i => Some (S i)
                 | None => None
                 end).
    by rewrite String.eqb_refl.
  - apply not_elem_of_cons in Hnot as [Hne Hnot].
    change (indexOf ((y :: pre) ++ x :: post) x)
      with (if String.eqb y x then Some 0
            else match indexOf (pre ++ x :: post) x with
                 | Some i => Some (S i)
                 | None => None
                 end).
    destruct (String.eqb_spec y x) as [-> | _]; [done|].
    by rewrite (IH Hnot).
Qed.

Lemma indexOf_absent l x : x ∉ l -> indexOf l x = None.
Proof.
  induction l as [|y l IH]; intros Hnot; [done|].
  apply not_elem_of_cons in Hnot as [Hne Hnot].
  change (indexOf (y :: l) x)
    with (if String.eqb y x then Some 0
          else match indexOf l x with
               | Some i => Some (S i)
               | None => None
               end).
  destruct (String.eqb_spec y x) as [-> | _]; [done|].
  by rewrite (IH Hnot).
Qed.

Section program.
Variable YAML_load : string -> LoadResult.
Variable JSON_parse : string -> LoadResult.
Variable errorMap : zod.IssueCode -> string.
Variable resolve : string -> string.
Variable existsSync : string -> bool.
Variable readFileSync : string -> ReadResult.

Abbreviation run_ :=
  (run YAML_load JSON_parse errorMap resolve existsSync readFileSync).
Abbreviation main_ :=
  (main YAML_load JSON_parse errorMap resolve existsSync readFileSync).

(** The flag decides between three outcomes. *)
Lemma formatOf_cases rest :
  formatOf rest = ret yaml \/ formatOf rest = ret json
  \/ formatOf rest = ([Err invalidFormat], Exited 1).
Proof.
  unfold formatOf.
  destruct (indexOf rest "--format") as [i|]; [|by left].
  destruct (rest !! (i + 1)) as [value|]; simpl; [|by left].
  destruct (String.eqb_spec value ""); simpl; [by left|].
  destruct (String.eqb_spec value "yaml"); [by left|].
  destruct (String.eqb_spec value "json"); [by right; left|].
  right. right. reflexivity.
Qed.

(** The five ways [analyze] can end, once the command and a file are
    given. *)
Lemma run_invalid_format node script file rest :
  file <> "" ->
  formatOf rest = ([Err invalidFormat], Exited 1) ->
  run_ (node :: script :: "analyze" :: file :: rest)
  = ([Err invalidFormat], 1).
Proof.
  intros Hfile Hformat. apply String.eqb_neq in Hfile.
  unfold run, main. simpl. change (drop 0 rest) with rest.
  rewrite Hfile, Hformat. reflexivity.
Qed.

Lemma run_file_not_found node script file rest format :
  file <> "" ->
  formatOf rest = ret format ->
  existsSync (resolve file) = false ->
  run_ (node :: script :: "analyze" :: file :: rest)
  = ([Err ("File not found: " +:+ resolve file)], 1).
Proof.
  intros Hfile Hformat Hexists. apply String.eqb_neq in Hfile.
  unfold run, main. simpl. change (drop 0 rest) with rest.
  rewrite Hfile, Hformat. simpl. rewrite Hexists. reflexivity.
Qed.

Lemma run_read_throws node script file rest format shown :
  file <> "" ->
  formatOf rest = ret format ->
  existsSync (resolve file) = true ->
  readFileSync (resolve file) = ReadThrows shown ->
  run_ (node :: script :: "analyze" :: file :: rest)
  = ([Err ("Unexpected error: " +:+ shown)], 1).
Proof.
  intros Hfile Hformat Hexists Hread. apply String.eqb_neq in Hfile.
  unfold run, main. simpl. change (drop 0 rest) with rest.
  rewrite Hfile, Hformat. simpl. rewrite Hexists. simpl.
  rewrite Hread. reflexivity.
Qed.

Lemma run_parse_failure node script file rest format raw :
  file <> "" ->
  formatOf rest = ret format ->
  existsSync (resolve file) = true ->
  readFileSync (resolve file) = Content raw ->
  parser.ir (parseConfigToIR YAML_load JSON_parse errorMap raw format)
  = None ->
  run_ (node :: script :: "analyze" :: file :: rest)
  = (Err "Parse / schema errors:"
       :: map (fun e => Err ("  - " +:+ e))
              (errors
                 (parseConfigToIR YAML_load JSON_parse errorMap raw format)),
     1).
Proof.
  intros Hfile Hformat Hexists Hread Hparse. apply String.eqb_neq in Hfile.
  unfold run, main. simpl. change (drop 0 rest) with rest.
  rewrite Hfile, Hformat. simpl. rewrite Hexists. simpl.
  rewrite Hread. simpl. rewrite Hparse, forEach_console_error. simpl.
  by rewrite app_nil_r.
Qed.

Lemma run_success node script file rest format raw cfg :
  file <> "" ->
  formatOf rest = ret format ->
  existsSync (resolve file) = true ->
  readFileSync (resolve file) = Content raw ->
  parser.ir (parseConfigToIR YAML_load JSON_parse errorMap raw format)
  = Some cfg ->
  run_ (node :: script :: "analyze" :: file :: rest)
  = (map Log
         (hashLine cfg
            :: ("Services: " +:+ pretty (length (services cfg)))
            :: "" :: violationLines (checkInvariants cfg)),
     0).
Proof.
  intros Hfile Hformat Hexists Hread Hparse. apply String.eqb_neq in Hfile.
  unfold run, main. simpl. change (drop 0 rest) with rest.
  rewrite Hfile, Hformat. simpl. rewrite Hexists. simpl.
  rewrite Hread. simpl. rewrite Hparse.
  unfold violationLines, hashLine.
  destruct (checkInvariants cfg) as [|v vs] eqn:Hvs; simpl; [done|].
  rewrite forEach_console_log. simpl. by rewrite map_map.
Qed.

Lemma run_usage argv :
  falsy (argv !! 2) || bool_decide (argv !! 2 = Some "--help")
    || bool_decide (argv !! 2 = Some "-h") = true ->
  run_ argv = (map Log usageLines, 0).
Proof. intros H. unfold run, main. rewrite H. reflexivity. Qed.

Lemma run_unknown_command argv command :
  argv !! 2 = Some command ->
  command <> "" -> command <> "--help" -> command <> "-h" ->
  command <> "analyze" ->
  run_ argv
  = (Err ("Unknown command: " +:+ command) :: map Log usageLines, 1).
Proof.
  intros Hcmd H1 H2 H3 H4. unfold run, main. rewrite Hcmd. simpl.
  apply String.eqb_neq in H1. rewrite H1.
  rewrite !bool_decide_eq_false_2 by congruence. reflexivity.
Qed.

Lemma run_missing_file argv :
  argv !! 2 = Some "analyze" ->
  falsy (argv !! 3) = true ->
  run_ argv = (Err "Missing <config-file>" :: map Log usageLines, 1).
Proof.
  intros Hcmd Hfile. unfold run, main. rewrite Hcmd, Hfile. reflexivity.
Qed.

(** X20: the exit status is 0 or 1, and it is 0 exactly when nothing was
    written to standard error, whatever the arguments and the file
    system. *)
Theorem cli_exit_status (argv : list string) :
  (snd (run_ argv) = 0 \/ snd (run_ argv) = 1)
  /\ (snd (run_ argv) = 0 <-> stderr (fst (run_ argv)) = []).
Proof.
  destruct (falsy (argv !! 2) || bool_decide (argv !! 2 = Some "--help")
            || bool_decide (argv !! 2 = Some "-h")) eqn:Husage.
  { rewrite (run_usage argv Husage). simpl. by split; [left|]. }
  apply orb_false_iff in Husage as [Husage H3].
  apply orb_false_iff in Husage as [H1 H2].
  apply bool_decide_eq_false in H2, H3.
  destruct (argv !! 2) as [command|] eqn:Hcmd; [|done]. simpl in H1.
  apply String.eqb_neq in H1.
  destruct (decide (command = "analyze")) as [-> | Hne].
  2:{ rewrite (run_unknown_command argv command) by congruence.
      simpl. by split; [right|]. }
  destruct (falsy (argv !! 3)) eqn:Hfile.
  { rewrite (run_missing_file argv Hcmd Hfile). simpl. by split; [right|]. }
  destruct argv as [|node [|script [|c [|file rest]]]]; try done.
  simpl in Hcmd, Hfile. injection Hcmd as ->.
  apply String.eqb_neq in Hfile.
  destruct (formatOf_cases rest) as [Hf | [Hf | Hf]];
    try (rewrite (run_invalid_format _ _ _ _ Hfile Hf); simpl;
         by split; [right|]).
  all: destruct (existsSync (resolve file)) eqn:Hexists;
    [|rewrite (run_file_not_found _ _ _ _ _ Hfile Hf Hexists); simpl;
      by split; [right|]].
  all: destruct (readFileSync (resolve file)) as [raw | shown] eqn:Hread;
    [|rewrite (run_read_throws _ _ _ _ _ _ Hfile Hf Hexists Hread); simpl;
      by split; [right|]].
  all: match goal with
       | Hf : formatOf _ = ret ?format |- _ =>
         destruct (parser.ir (parseConfigToIR YAML_load JSON_parse errorMap
                                raw format)) as [cfg|] eqn:Hparse
       end.
  all: try (rewrite (run_parse_failure _ _ _ _ _ _ Hfile Hf Hexists Hread
                       Hparse); simpl; by split; [right|]).
  all: rewrite (run_success _ _ _ _ _ _ _ Hfile Hf Hexists Hread Hparse);
    simpl; split; [by left|]; split; [intros _|done];
    by rewrite stderr_map_Log.
Qed.

End program.

(** X21: when the file parses, the program writes the report to standard
    output only and exits with 0, also when violations were found: the
    hash line with the first twelve characters of the SHA-256 of the file's
    text, the number of services, a blank line, and then either the line
    that no violation was found, or a count line followed by one line per
    violation, in the order of evaluation. *)
Theorem cli_report
    (YAML_load JSON_parse : string -> LoadResult)
    (errorMap : zod.IssueCode -> string)
    (resolve : string -> string) (existsSync : string -> bool)
    (readFileSync : string -> ReadResult)
    (node script file : string) (rest : list string)
    (format : ParseFormat) (raw : string) (cfg : ConfigIR) :
  file <> "" ->
  formatOf rest = ret format ->
  existsSync (resolve file) = true ->
  readFileSync (resolve file) = Content raw ->
  parser.ir (parseConfigToIR YAML_load JSON_parse errorMap raw format)
  = Some cfg ->
  let r := run YAML_load JSON_parse errorMap resolve existsSync readFileSync
             (node :: script :: "analyze" :: file :: rest) in
  let violations := checkInvariants cfg in
  snd r = 0
  /\ stderr (fst r) = []
  /\ stdout (fst r)
     = ("Config hash: " +:+ slice 0 12 (sha256.digest_hex raw))
         :: ("Services: " +:+ pretty (length (services cfg)))
         :: ""
         :: match violations with
            | [] => ["✅ No invariant violations found."]
            | _ =>
              ("❌ Found " +:+ pretty (length violations)
                 +:+ " violation(s):")
                :: map violationLine violations
            end
  /\ length (stdout (fst r)) = 4 + length violations.
Proof.
  intros Hfile Hformat Hexists Hread Hparse r violations. unfold r.
  rewrite (run_success _ _ _ _ _ _ _ _ _ _ _ _ _ Hfile Hformat Hexists Hread
             Hparse).
  cbn [fst snd].
  rewrite stderr_map_Log, stdout_map_Log.
  assert (Hhash : hashLine cfg
                  = "Config hash: " +:+ slice 0 12 (sha256.digest_hex raw)).
  { unfold hashLine.
    by rewrite (parser_props.parse_success_metadata _ _ _ _ _ _ Hparse). }
  rewrite Hhash. fold violations. unfold violationLines.
  repeat split.
  destruct violations; simpl; [done|]. by rewrite length_map.
Qed.

(** X22: when the file does not parse, the program writes nothing to
    standard output, writes the heading "Parse / schema errors:" and the
    one error, indented by "  - ", to standard error, and exits with 1. *)
Theorem cli_parse_failure
    (YAML_load JSON_parse : string -> LoadResult)
    (errorMap : zod.IssueCode -> string)
    (resolve : string -> string) (existsSync : string -> bool)
    (readFileSync : string -> ReadResult)
    (node script file : string) (rest : list string)
    (format : ParseFormat) (raw : string) :
  file <> "" ->
  formatOf rest = ret format ->
  existsSync (resolve file) = true ->
  readFileSync (resolve file) = Content raw ->
  parser.ir (parseConfigToIR YAML_load JSON_parse errorMap raw format)
  = None ->
  let r := run YAML_load JSON_parse errorMap resolve existsSync readFileSync
             (node :: script :: "analyze" :: file :: rest) in
  snd r = 1
  /\ stdout (fst r) = []
  /\ exists e,
       errors (parseConfigToIR YAML_load JSON_parse errorMap raw format)
       = [e]
       /\ stderr (fst r) = ["Parse / schema errors:"; "  - " +:+ e].
Proof.
  intros Hfile Hformat Hexists Hread Hparse r. unfold r.
  rewrite (run_parse_failure _ _ _ _ _ _ _ _ _ _ _ _ Hfile Hformat Hexists
             Hread Hparse).
  simpl fst. simpl snd. split; [done|].
  assert (Herr : exists e,
            errors (parseConfigToIR YAML_load JSON_parse errorMap raw format)
            = [e]).
  { revert Hparse. unfold parseConfigToIR.
    destruct (match format with
              | yaml => YAML_load raw
              | json => JSON_parse raw
              end) as [parsed | msg]; [|by eauto].
    destruct (zod.safeParse (configSchema errorMap) parsed); [done|].
    by eauto. }
  destruct Herr as [e He]. rewrite He. simpl. split; [done|].
  by exists e.
Qed.

(** X23: the [--format] flag is read among the arguments after the file, at
    its first occurrence: without the flag, or with the flag as the last
    argument, or followed by an empty argument, the format is yaml; json
    and yaml are taken as given; any other value makes the program write
    the invalid-format message and exit with 1 without looking at the
    file. *)
Theorem cli_format_flag :
  (forall rest, "--format" ∉ rest -> formatOf rest = ret yaml)
  /\ (forall pre, "--format" ∉ pre ->
        formatOf (pre ++ ["--format"]) = ret yaml)
  /\ (forall pre value post, "--format" ∉ pre ->
        formatOf (pre ++ "--format" :: value :: post)
        = if bool_decide (value = "" \/ value = "yaml") then ret yaml
          else if bool_decide (value = "json") then ret json
          else ([Err invalidFormat], Exited 1))
  /\ (forall YAML_load JSON_parse errorMap resolve existsSync readFileSync
             node script file pre value post,
        file <> "" -> "--format" ∉ pre ->
        value <> "" -> value <> "yaml" -> value <> "json" ->
        run YAML_load JSON_parse errorMap resolve existsSync readFileSync
          (node :: script :: "analyze" :: file
             :: pre ++ "--format" :: value :: post)
        = ([Err invalidFormat], 1)).
Proof.
  assert (Hvalue : forall pre value post, "--format" ∉ pre ->
            formatOf (pre ++ "--format" :: value :: post)
            = if bool_decide (value = "" \/ value = "yaml") then ret yaml
              else if bool_decide (value = "json") then ret json
              else ([Err invalidFormat], Exited 1)).
  { intros pre value post Hpre. unfold formatOf.
    rewrite (indexOf_first pre _ _ Hpre).
    assert (Hlook : (pre ++ "--format" :: value :: post) !! (length pre + 1)
                    = Some value).
    { rewrite lookup_app_r by lia.
      by replace (length pre + 1 - length pre) with 1 by lia. }
    rewrite Hlook. change (default "" (Some value)) with value.
    unfold falsy.
    destruct (String.eqb_spec value "") as [-> | H1]; [reflexivity|].
    destruct (String.eqb_spec value "yaml") as [-> | H2]; [reflexivity|].
    destruct (String.eqb_spec value "json") as [-> | H3]; [reflexivity|].
    cbn [negb].
    rewrite (bool_decide_eq_false_2 (value = "" \/ value = "yaml"))
      by tauto.
    by rewrite bool_decide_eq_false_2 by done. }
  split; [|split; [|split; [exact Hvalue|]]].
  - intros rest Hrest. unfold formatOf. by rewrite (indexOf_absent _ _ Hrest).
  - intros pre Hpre. unfold formatOf.
    rewrite (indexOf_first pre _ [] Hpre).
    assert (Hlook : (pre ++ ["--format"]) !! (length pre + 1) = None).
    { apply lookup_ge_None. rewrite length_app. simpl. lia. }
    by rewrite Hlook.
  - intros YAML_load JSON_parse errorMap resolve existsSync readFileSync
           node script file pre value post Hfile Hpre H1 H2 H3.
    apply run_invalid_format; [done|].
    rewrite (Hvalue pre value post Hpre).
    rewrite (bool_decide_eq_false_2 (value = "" \/ value = "yaml"))
      by tauto.
    by rewrite bool_decide_eq_false_2 by done.
Qed.

(** Scenario 2 in a file: two violations, and still exit status 0. *)
Lemma cli_report_witness :
  let r := run more_samples.sample_YAML_load2
             parser_samples.sample_JSON_parse parser_samples.sample_errorMap
             more_samples.sample_resolve more_samples.sample_existsSync
             more_samples.sample_readFileSync
             ["node"; "safeconfig"; "analyze"; "api.yaml";
              "--format"; "yaml"] in
  snd r = 0 /\ stderr (fst r) = [] /\ length (stdout (fst r)) = 4 + 2.
Proof.
  intros r.
  destruct (cli_report more_samples.sample_YAML_load2
              parser_samples.sample_JSON_parse parser_samples.sample_errorMap
              more_samples.sample_resolve more_samples.sample_existsSync
              more_samples.sample_readFileSync
              "node" "safeconfig" "api.yaml" ["--format"; "yaml"] yaml
              more_samples.scenario2_yaml
              {| services := [samples.api_gw];
                 metadata := Some {| sourceFormat := yaml;
                                     rawHash := Some "bde4558435fb" |} |})
    as (Hcode & Herr & _ & Hlen).
  - discriminate.
  - reflexivity.
  - reflexivity.
  - reflexivity.
  - vm_compute. reflexivity.
  - split; [exact Hcode|]. split; [exact Herr | exact Hlen].
Defined.

(** Scenario 5 in a file. *)
Lemma cli_parse_failure_witness :
  let r := run parser_samples.sample_YAML_load
             parser_samples.sample_JSON_parse parser_samples.sample_errorMap
             more_samples.sample_resolve more_samples.sample_existsSync
             more_samples.sample_readFileSync
             ["node"; "safeconfig"; "analyze"; "broken.yaml"] in
  snd r = 1 /\ stdout (fst r) = [].
Proof.
  intros r.
  destruct (cli_parse_failure parser_samples.sample_YAML_load
              parser_samples.sample_JSON_parse parser_samples.sample_errorMap
              more_samples.sample_resolve more_samples.sample_existsSync
              more_samples.sample_readFileSync
              "node" "safeconfig" "broken.yaml" [] yaml
              parser_samples.scenario5_yaml)
    as (Hcode & Hout & _).
  - discriminate.
  - reflexivity.
  - reflexivity.
  - reflexivity.
  - reflexivity.
  - split; [exact Hcode | exact Hout].
Defined.

End cli_props.

(* ===================================================================== *)
(** ** Properties of the HTTP handlers *)
(* ===================================================================== *)

Module server_props.
Import ir invariants diff parser diff_notions server.
Import invariants_props diff_props drift_props.

Section handlers.
Variable YAML_load : string -> LoadResult.
Variable JSON_parse : string -> LoadResult.
Variable errorMap : zod.IssueCode -> string.

Abbreviation parse_ := (parseConfigToIR YAML_load JSON_parse errorMap).
Abbreviation analyze_ := (analyze YAML_load JSON_parse errorMap).
Abbreviation diff_ := (server.diff YAML_load JSON_parse errorMap).

(** A parse result has an IR and no error, or no IR and one error. *)
Lemma parse_cases rawConfig format :
  (exists cfg, parse_ rawConfig format
               = {| parser.ir := Some cfg; errors := [] |})
  \/ (exists e, parse_ rawConfig format
                = {| parser.ir := None; errors := [e] |}).
Proof.
  unfold parseConfigToIR.
  destruct (match format with
            | yaml => YAML_load rawConfig
            | ir.json => JSON_parse rawConfig
            end) as [parsed | msg]; [|right; by eauto].
  destruct (zod.safeParse (configSchema errorMap) parsed) as [data | issues];
    [left | right]; by eauto.
Qed.



Lemma self_diff_neutral (A : ConfigIR) (V : list InvariantViolation) :
  totalNewViolations (summary (diffConfigs A A V V)) = 0
  /\ totalResolvedViolations (summary (diffConfigs A A V V)) = 0
  /\ Forall (fun c => riskImpact c = neutral)
            (changes (diffConfigs A A V V)).
Proof.
  split; [|split].
  - rewrite diffConfigs_spec. simpl. apply sum_list_zero.
    intros x. apply Nat.sub_diag.
  - rewrite diffConfigs_spec. simpl. apply sum_list_zero.
    intros x. apply Nat.sub_diag.
  - apply Forall_forall. intros c Hc.
    apply changes_elem in Hc as (nm & _ & _ & ->).
    simpl. unfold impactOf. by rewrite Nat.ltb_irrefl.
Qed.

(** X26: when both texts parse, the diff handler answers 200 with both
    IRs, the violations of each, the diff of exactly these, and no error.
    The totals of that diff balance the two violation counts, and when the
    two texts are the same text, both totals are 0 and every change is
    neutral. *)
Theorem diff_response (oldText newText : string) (format : ParseFormat)
    (oldIr newIr : ConfigIR) :
  parser.ir (parse_ oldText format) = Some oldIr ->
  parser.ir (parse_ newText format) = Some newIr ->
  let r := diff_ (Some {| oldConfig := zod.VStr oldText;
                          newConfig := zod.VStr newText;
                          d_format := Some format |}) in
  let oldViolations := checkInvariants oldIr in
  let newViolations := checkInvariants newIr in
  let d := diffConfigs oldIr newIr oldViolations newViolations in
  status r = 200
  /\ json r = DiffBody oldIr newIr oldViolations newViolations d []
  /\ totalNewViolations (summary d) + length oldViolations
     = totalResolvedViolations (summary d) + length newViolations
  /\ (oldText = newText ->
      totalNewViolations (summary d) = 0
      /\ totalResolvedViolations (summary d) = 0
      /\ Forall (fun c => riskImpact c = neutral) (changes d)).
Proof.
  intros Hold Hnew r oldViolations newViolations d.
  split; [|split; [|split]].
  - unfold r, server.diff. by rewrite Hold, Hnew.
  - unfold r, server.diff. rewrite Hold, Hnew.
    destruct (parse_cases oldText format) as [[c1 H1] | [e1 H1]];
      rewrite H1 in *; [|done].
    destruct (parse_cases newText format) as [[c2 H2] | [e2 H2]];
      rewrite H2 in *; [|done].
    reflexivity.
  - apply totals_balance.
    + intros v Hv. apply elem_of_app. left. by apply checkInvariants_names.
    + intros v Hv. apply elem_of_app. right. by apply checkInvariants_names.
  - intros <-. rewrite Hold in Hnew. injection Hnew as <-.
    apply self_diff_neutral.
Qed.

End handlers.


(** The empty configuration against Scenario 1. *)
Lemma diff_response_witness :
  status
    (server.diff parser_samples.sample_YAML_load
       parser_samples.sample_JSON_parse parser_samples.sample_errorMap
       (Some {| oldConfig := zod.VStr parser_samples.empty_block_yaml;
                newConfig := zod.VStr parser_samples.scenario1_yaml;
                d_format := Some yaml |})) = 200.
Proof.
  refine (proj1 (diff_response parser_samples.sample_YAML_load
                   parser_samples.sample_JSON_parse
                   parser_samples.sample_errorMap
                   parser_samples.empty_block_yaml
                   parser_samples.scenario1_yaml yaml _ _ _ _)).
  - vm_compute. reflexivity.
  - vm_compute. reflexivity.
Defined.

End server_props.
